(** * create-gaarf-wf: the command runner and the macro resolver

    A shallow embedding of [exec_cmd], [readDir], [getMacroValues] and
    [prompt] of gcp/create-gaarf-wf/src/index.ts, with some of [init], and
    the properties of them that the specification states.

    Conventions of the embedding.
    - A JavaScript string is its sequence of UTF-16 code units, a
      [list N]; [js "..."] writes an ASCII literal.  A [Buffer] is its
      sequence of bytes.
    - An object used as a dictionary is a [gmap] of its own properties; the
      members it inherits from [Object.prototype] are taken into account
      where the source's operators see them ([in], assignment to
      [__proto__]).
    - Objects that are mutated in place live in a heap and are named by
      their location, so that two keys holding the same object share its
      changes.
    - What a function does to the outside (console, terminal, log file,
      questions to the operator) is returned as the list of its effects,
      in the order they happen.
    - What the source calls and does not define is taken as follows.  The
      methods of strings, arrays and objects follow the language.  [spawn]
      refuses a command it cannot accept and throws; the child it starts is
      given by the events it emits.  The cursor methods of
      [process.stdout] exist on a terminal only.  The decoding of a
      [Buffer], [path.resolve] and [inquirer.prompt] are parameters: the
      properties hold whatever they do.  The calls of [console], of [fs] on
      the log file and of the spinner succeed. *)

From Stdlib Require Import ZArith NArith Ascii String Strings.Byte.
From stdpp Require Import gmap list sorting.

Local Open Scope N_scope.

(** ** JavaScript strings *)

Module JS.

Abbreviation jsstring := (list N) (only parsing).

(** An ASCII literal as a string of code units. *)
Definition js (s : string) : jsstring :=
  map N_of_ascii (list_ascii_of_string s).

(** The bytes of a [Buffer], and an ASCII literal as a buffer. *)
Abbreviation Buffer := (list byte) (only parsing).

Definition bytes (s : string) : Buffer := list_byte_of_string s.

Definition lbrace : N := 123.  (* { *)
Definition rbrace : N := 125.  (* } *)
Definition dollar : N := 36.   (* $ *)
Definition CR : N := 13.       (* \r *)
Definition LF : N := 10.       (* \n *)

(** [\d] without the [u] flag: an ASCII digit. *)
Definition is_digit (c : N) : bool := (48 <=? c) && (c <=? 57).

(** [s.startsWith(p)] at the current position. *)
Fixpoint starts_with (p s : jsstring) : bool :=
  match p, s with
  | [], _ => true
  | a :: p', b :: s' => (a =? b) && starts_with p' s'
  | _ :: _, [] => false
  end.

(** [s.endsWith(p)]. *)
Definition endsWith (s p : jsstring) : bool :=
  starts_with (rev p) (rev s).

(** [s.substring(0, n)]. *)
Definition substring0 (s : jsstring) (n : nat) : jsstring := take n s.

(** [s.split(sep)] for a separator that is not empty.  The index the
    source library keeps is the list position; after a separator is found
    the next [length sep - 1] code units belong to it and are skipped
    ([skip]); [cur] is the piece being collected. *)
Fixpoint split_from (sep : jsstring) (skip : nat) (cur : jsstring)
    (s : jsstring) : list jsstring :=
  match s with
  | [] => [cur]
  | c :: rest =>
      match skip with
      | S k => split_from sep k cur rest
      | O =>
          if starts_with sep s
          then cur :: split_from sep (length sep - 1) [] rest
          else split_from sep 0 (cur ++ [c]) rest
      end
  end.

Definition split (s sep : jsstring) : list jsstring :=
  split_from sep 0 [] s.

(** [ToInt32], what [x | 0] does to an integral number: wrap into
    [-2^31, 2^31). *)
Definition to_int32 (z : Z) : Z :=
  ((z + 2 ^ 31) mod 2 ^ 32 - 2 ^ 31)%Z.

(** [(a / b) | 0] for integral [a], [b]: the quotient is truncated toward
    zero and wrapped; a division by zero gives an infinity or NaN, which
    [| 0] turns into 0. *)
Definition div_or0 (a b : Z) : Z :=
  if (b =? 0)%Z then 0%Z else to_int32 (a ÷ b).

End JS.
Export JS.

(** ** Regular expressions of the source *)

Module Regex.

(** Canonicalization of a code unit under the [i] flag (no [u] flag): the
    upper-case form, except that a code unit outside ASCII never maps into
    ASCII.  Both patterns of the source are ASCII, so for the other code
    units only that fact matters and they are left as they are. *)
Definition canonicalize (c : N) : N :=
  if (97 <=? c) && (c <=? 122) then c - 32 else c.

(** The literal [p] matches at the start of [s], ignoring case. *)
Fixpoint starts_with_ci (p s : jsstring) : bool :=
  match p, s with
  | [], _ => true
  | a :: p', b :: s' =>
      (canonicalize a =? canonicalize b) && starts_with_ci p' s'
  | _ :: _, [] => false
  end.

(** [s.match(/p/i)?.index] for a literal [p]: the index of the leftmost
    match, counted from [pos]. *)
Fixpoint search_ci (p : jsstring) (pos : nat) (s : jsstring) : option nat :=
  if starts_with_ci p s then Some pos
  else match s with
       | [] => None
       | _ :: rest => search_ci p (S pos) rest
       end.

(** [[^}]+] is greedy: the longest run of code units other than [}], and
    what follows it. *)
Fixpoint run_not_rbrace (s : jsstring) : jsstring * jsstring :=
  match s with
  | [] => ([], [])
  | c :: rest =>
      if c =? rbrace then ([], s)
      else let '(run, after) := run_not_rbrace rest in (c :: run, after)
  end.

(** One attempt of [/(?<!\$)\{(?<macro>[^}]+)\}/] at the current position;
    [prev] is the code unit before it, which the lookbehind inspects.  The
    run cannot be shortened to a match by backtracking: what follows a
    shorter run is a code unit of the run, not [}].  The result is the
    group [macro]. *)
Definition match_here (prev : option N) (s : jsstring) : option jsstring :=
  match s with
  | c :: rest =>
      if (c =? lbrace) && negb (bool_decide (prev = Some dollar)) then
        let '(macro, after) := run_not_rbrace rest in
        match macro, after with
        | _ :: _, _ :: _ => Some macro
        | _, _ => None
        end
      else None
  | [] => None
  end.

(** [[...s.matchAll(re)]]: the matches from left to right, each with its
    [index] and its group [macro].  After a match the search resumes at
    [lastIndex], behind the closing brace: the [skip] code units of the
    match are passed over. *)
Fixpoint matchAll_from (prev : option N) (skip : nat) (pos : nat)
    (s : jsstring) : list (nat * jsstring) :=
  match s with
  | [] => []
  | c :: rest =>
      match skip with
      | S k => matchAll_from (Some c) k (S pos) rest
      | O =>
          match match_here prev s with
          | Some macro =>
              (pos, macro)
                :: matchAll_from (Some c) (length macro + 1) (S pos) rest
          | None => matchAll_from (Some c) 0 (S pos) rest
          end
      end
  end.

Definition matchAll (s : jsstring) : list (nat * jsstring) :=
  matchAll_from None 0 0 s.

End Regex.
Export Regex.

(** ** Texts passed through [chalk] *)

Module Chalk.

(** [chalk] wraps a text in the escape sequences of a colour when the
    terminal has colours and leaves it as it is otherwise; a printed text
    is kept as its parts, each with the colour asked for. *)
Inductive style := plain | gray | yellow.

Abbreviation styled := (list (style * jsstring)) (only parsing).

Definition unstyled (text : jsstring) : styled := [(plain, text)].
Definition chalk_gray (text : jsstring) : styled := [(gray, text)].
Definition chalk_yellow (text : jsstring) : styled := [(yellow, text)].

(** The text itself, the colours left aside. *)
Definition characters (text : styled) : jsstring := concat (map snd text).

End Chalk.
Export Chalk.

(** ** The command runner: [exec_cmd] *)

Module CommandRunner.

(** The command line flags the module reads once: [argv.diag] and
    [argv.debug], as truth values. *)
Record flags := { diag : bool; debug : bool }.

Definition is_diag (f : flags) : bool := diag f.
Definition is_debug (f : flags) : bool := debug f || diag f.

(** What the runner reads from its host: [os.EOL], and [process.stdout],
    which is a terminal ([isTTY]) or another stream (a pipe, a file).  Only
    a terminal has [columns] and the methods [cursorTo], [moveCursor] and
    [clearScreenDown]: on another stream they are [undefined], and what
    [columns] is below plays no role, since the first of the three calls
    throws.  A terminal that does not tell its size has [columns] undefined
    too; the division by it gives NaN, which [| 0] turns into 0 as it does
    for the width 0, so that terminal is a host with [columns = 0]. *)
Record host := { EOL : jsstring; isTTY : bool; columns : Z }.

(** The third parameter; a field that is [None] is [undefined]. *)
Record options := {
  realtime : option bool;
  silent : option bool;
  keep_output : option bool;
}.

(** The object literal without properties. *)
Definition no_options : options :=
  {| realtime := None; silent := None; keep_output := None |}.

(** Truth value of an optional boolean, and of a string. *)
Definition truthy (b : option bool) : bool := default false b.
Definition nonempty (s : jsstring) : bool :=
  match s with [] => false | _ :: _ => true end.

(** A [clui.Spinner], known by its message. *)
Inductive Spinner := new_Spinner (message : jsstring).

(** A block appended to the log file (the time stamp is left out).  The
    code of [Returned] is the one passed to the listener of ['close']:
    [None] is [null]. *)
Inductive log_entry :=
| Running (cmd : jsstring)
| Returned (cmd : jsstring) (code : option Z)
| Output (text : jsstring).

Inductive stream := Stdout | Stderr.

#[global] Instance stream_eq_dec : EqDecision stream.
Proof. solve_decision. Defined.

Inductive effect :=
| spinner_start
| spinner_stop
| console_log (text : styled)
| appendFileSync (entry : log_entry)
| spawn (cmd : jsstring)
| write (to : stream) (chunk : Buffer)
| cursorTo (x : Z)
| moveCursor (dx dy : Z)
| clearScreenDown.

(** What the child process emits: a chunk of one of its two streams, a
    [Buffer] since no encoding is set on them; ['close'] with the exit code,
    or with [null] when a signal ended the child; ['error'] when the child
    could not be started. *)
Inductive child_event :=
| data (from : stream) (chunk : Buffer)
| close (code : option Z)
| error.

(** The value of the promise.  Its [code] is declared a number and holds
    what ['close'] passed. *)
Record result := { code : option Z; stderr : jsstring; stdout : jsstring }.

(** What the call or one of its listeners can throw: [spawn] refusing its
    argument, the call of a method that [process.stdout] does not have, an
    ['error'] event for which no listener is registered. *)
Inductive exception :=
| ERR_INVALID_ARG_VALUE
| not_a_function
| unhandled_error.

(** The promise is created with [resolve] alone. *)
Inductive promise_state := pending | resolved (value : result).

(** The variables of the promise's executor: the two buffers and the
    promise itself; and the exception a listener has thrown, which nothing
    catches and which ends the process. *)
Record running := {
  buf_stderr : jsstring;
  buf_stdout : jsstring;
  promise : promise_state;
  uncaught : option exception;
}.

(** How a call ends: it throws, or it returns a promise, whose state after
    the events is given, with the exception a listener threw, if any. *)
Inductive completion :=
| thrown (e : exception)
| promised (state : promise_state) (uncaught : option exception).

(** Lines 56 to 63: the options the call works with. *)
Definition effective_options (f : flags) (spinner : option Spinner)
    (opts : option options) : options :=
  let o := default no_options opts in
  let o :=
    if bool_decide (is_Some spinner) && bool_decide (realtime o = None)
    then {| realtime := Some false; silent := silent o;
            keep_output := keep_output o |}
    else o in
  if is_diag f
  then {| realtime := realtime o; silent := silent o;
          keep_output := Some true |}
  else o.

(** [spawn(cmd, [], {shell: true, ...})] checks its first argument before
    it starts anything: it throws for the empty string and, in the versions
    of Node that look for it, for a string that holds the code unit 0.  The
    limits of the operating system (a command line too long) are left
    out, like the failures of the file system. *)
Definition spawn_refuses (cmd : jsstring) : bool :=
  negb (nonempty cmd) || bool_decide (0 ∈ cmd).

(** The part of a line after its last carriage return:
    [arr = line.split('\r'); arr[arr.length - 1]]. *)
Definition normalize (line : jsstring) : jsstring :=
  default [] (last (split line [CR])).

(** [(stdout ? stdout.split(os.EOL) : []).concat(
      stderr ? stderr.split(os.EOL) : [])]. *)
Definition output_lines (h : host) (out err : jsstring) : list jsstring :=
  (if nonempty out then split out (EOL h) else [])
    ++ (if nonempty err then split err (EOL h) else []).

(** The lines after [lines.map(line => ...)]. *)
Definition captured_lines (h : host) (out err : jsstring) : list jsstring :=
  map normalize (output_lines h out err).

(** [lines.map(line => ((line.length / terminal_width) | 0) + 1)
         .reduce((total, count) => (total += count), 0)]. *)
Definition row_count (terminal_width : Z) (lines : list jsstring) : Z :=
  foldl (fun total count => total + count)%Z 0%Z
    (map (fun line => div_or0 (Z.of_nat (length line)) terminal_width + 1)%Z
       lines).

(** Lines 89 to 104: removing the output of the command from the
    terminal; the three calls are those of a terminal. *)
Definition erase_output (h : host) (out err : jsstring) : list effect :=
  let terminal_width := columns h in
  let lines := captured_lines h out err in
  if bool_decide (0 < length lines)%nat then
    [cursorTo 0; moveCursor 0 (- row_count terminal_width lines + 1);
     clearScreenDown]
  else [].

(** The test of line 87:
    [!spinner && options?.realtime && !options?.keep_output]. *)
Definition erasing (spinner : option Spinner) (o : options) : bool :=
  negb (bool_decide (is_Some spinner)) && truthy (realtime o)
    && negb (truthy (keep_output o)).

(** Lines 64 to 68: what the call does before it starts the child. *)
Definition before_spawn (f : flags) (cmd : jsstring)
    (spinner : option Spinner) : list effect :=
  (if bool_decide (is_Some spinner) then [spinner_start] else [])
    ++ (if is_debug f
        then [console_log (chalk_gray cmd); appendFileSync (Running cmd)]
        else []).

Section Decoding.

(** [chunk.toString()], what [+=] makes of a [Buffer]: its decoding as
    UTF-8, chunk by chunk. *)
Variable toString : Buffer -> jsstring.

(** The listeners of ['data'] on [cp.stderr] and [cp.stdout]. *)
Definition on_data (o : options) (from : stream) (chunk : Buffer)
    (st : running) : running * list effect :=
  (match from with
   | Stderr => {| buf_stderr := buf_stderr st ++ toString chunk;
                  buf_stdout := buf_stdout st;
                  promise := promise st; uncaught := uncaught st |}
   | Stdout => {| buf_stderr := buf_stderr st;
                  buf_stdout := buf_stdout st ++ toString chunk;
                  promise := promise st; uncaught := uncaught st |}
   end,
   if truthy (realtime o) then [write from chunk] else []).

(** The listener of ['close'].  When there is something to erase and
    [process.stdout] is not a terminal, the first of the three calls
    throws: what follows it in the listener, [resolve] included, does not
    run. *)
Definition on_close (f : flags) (h : host) (cmd : jsstring)
    (spinner : option Spinner) (o : options) (code : option Z)
    (st : running) : running * list effect :=
  let err := buf_stderr st in
  let out := buf_stdout st in
  let stop := if bool_decide (is_Some spinner) then [spinner_stop] else [] in
  let erasure := if erasing spinner o then erase_output h out err else [] in
  match erasure, isTTY h with
  | _ :: _, false =>
      ({| buf_stderr := err; buf_stdout := out; promise := promise st;
          uncaught := Some not_a_function |},
       stop)
  | _, _ =>
      ({| buf_stderr := err; buf_stdout := out;
          promise :=
            match promise st with
            | resolved r => resolved r
            | pending =>
                resolved {| code := code; stderr := err; stdout := out |}
            end;
          uncaught := uncaught st |},
       stop
         ++ erasure
         ++ (if nonempty err && negb (truthy (realtime o))
                && negb (truthy (silent o))
                && negb (bool_decide (code = Some 0%Z))
             then [console_log (unstyled err)] else [])
         ++ (if is_debug f
             then [appendFileSync (Returned cmd code);
                   appendFileSync (Output (out ++ [LF]));
                   appendFileSync (Output (err ++ [LF]))]
             else []))
  end.

(** One event of the child.  No listener is registered for ['error']: the
    emitter throws it. *)
Definition deliver (f : flags) (h : host) (cmd : jsstring)
    (spinner : option Spinner) (o : options) (e : child_event)
    (st : running) : running * list effect :=
  match e with
  | data from chunk => on_data o from chunk st
  | close code => on_close f h cmd spinner o code st
  | error =>
      ({| buf_stderr := buf_stderr st; buf_stdout := buf_stdout st;
          promise := promise st; uncaught := Some unhandled_error |}, [])
  end.

(** The events of the child in the order they arrive, up to the first
    listener that throws. *)
Fixpoint listen (f : flags) (h : host) (cmd : jsstring)
    (spinner : option Spinner) (o : options) (events : list child_event)
    (st : running) : running * list effect :=
  match events with
  | [] => (st, [])
  | e :: events' =>
      let '(st1, fx1) := deliver f h cmd spinner o e st in
      match uncaught st1 with
      | Some _ => (st1, fx1)
      | None =>
          let '(st2, fx2) := listen f h cmd spinner o events' st1 in
          (st2, fx1 ++ fx2)
      end
  end.

(** [exec_cmd(cmd, spinner, options)] for a child that emits [events]: the
    effects of the call and of its listeners, and how the call ends. *)
Definition exec_cmd (f : flags) (h : host) (cmd : jsstring)
    (spinner : option Spinner) (opts : option options)
    (events : list child_event) : list effect * completion :=
  let o := effective_options f spinner opts in
  let before := before_spawn f cmd spinner in
  if spawn_refuses cmd then (before, thrown ERR_INVALID_ARG_VALUE)
  else
    let '(st, fx) :=
      listen f h cmd spinner o events
        {| buf_stderr := []; buf_stdout := []; promise := pending;
           uncaught := None |} in
    (before ++ [spawn cmd] ++ fx, promised (promise st) (uncaught st)).

(** The text of one stream among the chunks, as the buffers collect it. *)
Definition text_of (s : stream) (chunks : list (stream * Buffer))
    : jsstring :=
  concat (map (fun c => toString c.2) (filter (fun c => c.1 = s) chunks)).

End Decoding.

(** The three terminal calls of the erasure. *)
Definition is_erasure (e : effect) : bool :=
  match e with
  | cursorTo _ | moveCursor _ _ | clearScreenDown => true
  | _ => false
  end.

(** A child that prints [chunks] and then closes with [code]. *)
Definition child (chunks : list (stream * Buffer)) (code : option Z)
    : list child_event :=
  map (fun c => data c.1 c.2) chunks ++ [close code].

(** What the data listeners write for a run of chunks. *)
Definition echo (o : options) (chunks : list (stream * Buffer))
    : list effect :=
  if truthy (realtime o) then map (fun c => write c.1 c.2) chunks else [].

(** A POSIX host on a terminal of the given width, and one whose standard
    output is not a terminal. *)
Definition posix (terminal_width : Z) : host :=
  {| EOL := [LF]; isTTY := true; columns := terminal_width |}.

Definition posix_piped : host :=
  {| EOL := [LF]; isTTY := false; columns := 0 |}.

(** The decoding of a buffer that holds ASCII only, a code unit for each
    byte; the examples decode with it. *)
Definition ascii_toString (chunk : Buffer) : jsstring :=
  map Byte.to_N chunk.

End CommandRunner.
Export CommandRunner.

(** ** The macro resolver: [readDir], [getMacroValues], [prompt] *)

Module MacroResolver.

(** What [fs.readdirSync(_, {withFileTypes: true})] finds in a directory,
    with the same for each directory below it. *)
#[warnings="-register-all"]
Inductive dirent :=
| file (name : jsstring)
| directory (name : jsstring) (entries : list dirent).

Section Paths.

(** [path.resolve(dirpath, name)]: the path of an entry of a directory. *)
Variable path_resolve : jsstring -> jsstring -> jsstring.

(** The callback of [entries.forEach] in [readDir(dirpath)]: what one
    entry adds to [results]. *)
Fixpoint readDir_entry (dirpath : jsstring) (entry : dirent)
    : list jsstring :=
  match entry with
  | file name => [path_resolve dirpath name]
  | directory name below =>
      flat_map (readDir_entry (path_resolve dirpath name)) below
  end.

(** [readDir(dirpath)], where [entries] is what the directory holds. *)
Definition readDir (dirpath : jsstring) (entries : list dirent)
    : list jsstring :=
  flat_map (readDir_entry dirpath) entries.

End Paths.

(** The object [macro: Record<string, null>], created as [{}]: its own
    keys in the order of their creation, and whether its prototype is still
    [Object.prototype]. *)
Record macro_object := {
  has_prototype : bool;
  keys : list jsstring;
}.

(** The own keys as a set. *)
Definition own_keys (macro : macro_object) : gset jsstring :=
  list_to_set (keys macro).

Definition empty_object : macro_object :=
  {| has_prototype := true; keys := [] |}.

(** [macro[name] = null].  A name that is a key already keeps its place.
    For the name [__proto__] the setter inherited from [Object.prototype]
    runs instead, and sets the prototype to [null] without creating a key;
    once the prototype is gone the name is a key like any other. *)
Definition assign_null (macro : macro_object) (name : jsstring)
    : macro_object :=
  if bool_decide (name = js "__proto__") && has_prototype macro
  then {| has_prototype := false; keys := keys macro |}
  else {| has_prototype := has_prototype macro;
          keys := if bool_decide (name ∈ keys macro) then keys macro
                  else keys macro ++ [name] |}.

(** The array index a name stands for: the name is the decimal form,
    without leading zeros, of an integer below [2^32 - 1]. *)
Definition array_index (name : jsstring) : option N :=
  match name with
  | [] => None
  | c :: digits =>
      if forallb is_digit name && (negb (c =? 48) || negb (nonempty digits))
      then
        let n := foldl (fun n d => 10 * n + (d - 48)) 0 name in
        if n <? 2 ^ 32 - 1 then Some n else None
      else None
  end.

(** The order of two keys that are array indices. *)
Definition index_le (a b : N * jsstring) : Prop := a.1 ≤ b.1.

#[global] Instance index_le_dec : RelDecision index_le.
Proof. intros a b. unfold index_le. apply _. Defined.

(** [Object.keys(macro)]: the keys that are array indices in ascending
    order, then the others in the order of their creation. *)
Definition Object_keys (macro : macro_object) : list jsstring :=
  map snd
    (merge_sort index_le
       (omap (fun name => (fun n => (n, name)) <$> array_index name)
          (keys macro)))
    ++ filter (fun name => array_index name = None) (keys macro).

(** Lines 254 to 257: cutting the text at the FUNCTIONS block. *)
Definition cut_functions (script_content : jsstring) : jsstring :=
  match search_ci (js "FUNCTIONS") 0 script_content with
  | Some (S index) => substring0 script_content (S index)
  | Some O => script_content
  | None => script_content
  end.

(** Lines 252 to 268: the macros of one script. *)
Definition scan_script (macro : macro_object) (script_content : jsstring)
    : macro_object :=
  foldl assign_null macro
    (map snd (matchAll (cut_functions script_content))).

(** Lines 251 to 269: the body of the loop over the files. *)
Definition visit (readFileSync : jsstring -> jsstring)
    (macro : macro_object) (file_path : jsstring) : macro_object :=
  if endsWith file_path (js ".sql")
  then scan_script macro (readFileSync file_path)
  else macro.

(** Lines 249 to 270: the loop over the files. *)
Definition discover (readFileSync : jsstring -> jsstring)
    (filelist : list jsstring) : macro_object :=
  foldl (visit readFileSync) empty_object filelist.

(** A question of type ['text']. *)
Record question := { name : jsstring; message : jsstring }.

Definition location := positive.

(** The values an answers object holds. *)
Inductive jsval :=
| JNull
| JBool (b : bool)
| JNum (n : Z)
| JStr (s : jsstring)
| JObj (at_location : location).

(** What the object of a namespace holds under a name: a text (a string of
    the answers file, or what the operator typed), or a value of another
    kind (a number, an array, an object made for a name with dots, ...),
    kept as [JSON.stringify] writes it. *)
Inductive answer_value :=
| answer_text (s : jsstring)
| answer_json (json : jsstring).

(** The [answers] object a caller passes, and the objects its properties
    refer to. *)
Record store := {
  answers : gmap jsstring jsval;
  heap : gmap location (gmap jsstring answer_value);
}.

(** [!v], where [None] is [undefined]. *)
Definition falsy (v : option jsval) : bool :=
  match v with
  | None => true
  | Some JNull => true
  | Some (JBool b) => negb b
  | Some (JNum n) => (n =? 0)%Z
  | Some (JStr s) => negb (nonempty s)
  | Some (JObj _) => false
  end.

(** The names every object inherits from [Object.prototype]. *)
Definition Object_prototype : list jsstring :=
  [js "constructor"; js "__defineGetter__"; js "__defineSetter__";
   js "hasOwnProperty"; js "__lookupGetter__"; js "__lookupSetter__";
   js "isPrototypeOf"; js "propertyIsEnumerable"; js "toString";
   js "valueOf"; js "__proto__"; js "toLocaleString"].

(** [name in object]. *)
Definition has_property (name : jsstring)
    (object : gmap jsstring answer_value) : bool :=
  bool_decide (is_Some (object !! name))
  || bool_decide (name ∈ Object_prototype).

Definition object_at (σ : store) (l : location)
    : gmap jsstring answer_value :=
  default ∅ (heap σ !! l).

(** What the operator sees: a text printed with [console.log], a question
    put by the library. *)
Inductive interaction :=
| printed (text : styled)
| asked (q : jsstring).

(** How a call ends, once awaited: with the hash of the answers, with the
    rejection of the library's promise, or with the [TypeError] that [in]
    throws. *)
Inductive outcome :=
| returned (value : gmap jsstring answer_value)
| rejected
| TypeError.

(** [Object.assign(target, source)]. *)
Definition Object_assign (target source : gmap jsstring answer_value)
    : gmap jsstring answer_value :=
  source ∪ target.

Definition notice (folder_path : jsstring) : list interaction :=
  [printed
     (unstyled
        (js "Please enter values for the following macros found in your scripts in '"
           ++ folder_path ++ js "' folder"));
   printed
     (chalk_yellow (js "Tip: ")
        ++ chalk_gray
             (js "beside constants you can use :YYYYMMDD-N values and expressions (${..})"))].

Section Library.

Variable path_resolve : jsstring -> jsstring -> jsstring.

(** [inquirer.prompt(questions, answers)], for the questions and the
    answers object passed: the names of the questions it puts to the
    operator, in order, and the hash its promise is resolved with, or
    [None] when the promise is rejected. *)
Variable inquirer_prompt :
  list question -> gmap jsstring answer_value ->
  list jsstring * option (gmap jsstring answer_value).

(** [prompt(questions, answers)]: the names asked, the value returned
    ([None] when the call is rejected at [await]) and the object [answers]
    after the call. *)
Definition prompt (questions : list question)
    (object : gmap jsstring answer_value)
    : list jsstring * option (gmap jsstring answer_value)
      * gmap jsstring answer_value :=
  let '(names, actual_answers) := inquirer_prompt questions object in
  (names, actual_answers,
   match actual_answers with
   | Some hash => Object_assign object hash
   | None => object
   end).

(** Lines 289 and 290, once [answers[prefix]] is the object at [l]. *)
Definition prompt_namespace (options : list question) (l : location)
    (said : list interaction) (σ : store)
    : outcome * store * list interaction :=
  let '(names, actual_answers, object) :=
    prompt options (object_at σ l) in
  (match actual_answers with
   | Some hash => returned hash
   | None => rejected
   end,
   {| answers := answers σ; heap := <[l := object]> (heap σ) |},
   said ++ map asked names).

(** [getMacroValues(folder_path, answers, prefix)] in a directory that
    holds [tree]: how the call ends, the store after it and what the
    operator saw.  [answers[prefix]] is read among the own properties of
    [answers]. *)
Definition getMacroValues (tree : list dirent)
    (readFileSync : jsstring -> jsstring) (folder_path : jsstring)
    (prefix : jsstring) (σ : store) : outcome * store * list interaction :=
  let filelist := readDir path_resolve folder_path tree in
  let macro := discover readFileSync filelist in
  let options :=
    map (fun name => {| name := name; message := name |})
      (Object_keys macro) in
  if bool_decide (0 < length options)%nat then
    let entry := answers σ !! prefix in
    if falsy entry then
      (* [answers[prefix] = {}], a new object *)
      let l := fresh (dom (heap σ)) in
      prompt_namespace options l (notice folder_path)
        {| answers := <[prefix := JObj l]> (answers σ);
           heap := <[l := ∅]> (heap σ) |}
    else
      match entry with
      | Some (JObj l) =>
          let missing :=
            filter (fun i => negb (has_property (name i) (object_at σ l)))
              options in
          prompt_namespace options l
            (if bool_decide (0 < length missing)%nat
             then notice folder_path else [])
            σ
      | _ => (* [in] applied to a primitive value *)
          (TypeError, σ, [])
      end
  else (returned ∅, σ, []).

End Library.


Section Keyed.

(** What the operator types when asked the question of a given name. *)
Variable operator : jsstring -> jsstring.



End Keyed.

(** How [path.resolve] names an entry when the directory path is absolute
    and normalized and the host is POSIX: the directory, a slash, the name.
    The examples take it for [path.resolve]. *)
Definition slash (dirpath name : jsstring) : jsstring :=
  dirpath ++ js "/" ++ name.

End MacroResolver.
Export MacroResolver.
(** ** More of the strings library, as [init] uses it *)

Module JSText.

(** [pieces.join(sep)]. *)
Fixpoint join (pieces : list jsstring) (sep : jsstring) : jsstring :=
  match pieces with
  | [] => []
  | [piece] => piece
  | piece :: rest => piece ++ sep ++ join rest sep
  end.

(** [s.replaceAll(pattern, replacement)] for a pattern string that is not
    empty and a replacement without [$]: the occurrences are taken from
    left to right and do not overlap; [skip] passes over the rest of an
    occurrence. *)
Fixpoint replaceAll_from (pattern replacement : jsstring) (skip : nat)
    (s : jsstring) : jsstring :=
  match s with
  | [] => []
  | c :: rest =>
      match skip with
      | S k => replaceAll_from pattern replacement k rest
      | O =>
          if starts_with pattern s
          then replacement
                 ++ replaceAll_from pattern replacement (length pattern - 1)
                      rest
          else c :: replaceAll_from pattern replacement 0 rest
      end
  end.

Definition replaceAll (s pattern replacement : jsstring) : jsstring :=
  replaceAll_from pattern replacement 0 s.

Definition colon : N := 58.
Definition comma : N := 44.
Definition space : N := 32.
Definition underscore : N := 95.
Definition hyphen : N := 45.

End JSText.
Export JSText.

(** ** What a call did, read from its effects *)

Module Observe.

(** The chunks written to one of the two streams, in order. *)
Definition written (s : stream) (fx : list effect) : list Buffer :=
  omap (fun e => match e with
                 | write to chunk =>
                     if decide (to = s) then Some chunk else None
                 | _ => None
                 end) fx.

Definition is_write (e : effect) : bool :=
  match e with write _ _ => true | _ => false end.

(** The entries appended to the log file, in order. *)
Definition logged (fx : list effect) : list log_entry :=
  omap (fun e => match e with appendFileSync entry => Some entry | _ => None end)
    fx.

Definition is_close (e : child_event) : bool :=
  match e with close _ => true | _ => false end.

Definition is_error (e : child_event) : bool :=
  match e with error => true | _ => false end.

(** The texts printed with [console.log], in order, colours aside. *)
Definition shown (fx : list effect) : list jsstring :=
  omap (fun e => match e with
                 | console_log text => Some (characters text)
                 | _ => None
                 end) fx.

End Observe.
Export Observe.

Module Init.

(** Lines 341 to 343, the filter of the project name:
    [value.replaceAll(' ', '-').replaceAll('_', '-')]. *)
Definition name_filter (value : jsstring) : jsstring :=
  replaceAll (replaceAll value (js " ") (js "-")) (js "_") (js "-").

(** Lines 381 to 385, the filter of the bucket name:
    [value.startsWith('gs://') ? value.substring('gs://'.length) : value]. *)
Definition gcs_bucket_filter (value : jsstring) : jsstring :=
  if starts_with (js "gs://") value
  then drop (length (js "gs://")) value
  else value.

(** Lines 653 to 656: the schedule of the job from the time entered. *)
Definition schedule_cron (schedule_time : jsstring) : jsstring :=
  let time_parts := split schedule_time (js ":") in
  (if bool_decide (1 < length time_parts)%nat
   then default [] (time_parts !! 1%nat) else js "0")
    ++ js " " ++ default [] (time_parts !! 0%nat) ++ js " * * *".

(** How far a match of [/\d+(:\d+)*/] goes on after a digit: a digit
    extends it, and so does a colon that has a digit behind it. *)
Fixpoint time_tail (s : jsstring) : nat :=
  match s with
  | [] => O
  | c :: rest =>
      if is_digit c then S (time_tail rest)
      else if c =? colon then
        match rest with
        | d :: _ => if is_digit d then S (time_tail rest) else O
        | [] => O
        end
      else O
  end.

(** One attempt of the pattern at the current position: the length of the
    match. *)
Definition time_here (s : jsstring) : option nat :=
  match s with
  | c :: rest => if is_digit c then Some (S (time_tail rest)) else None
  | [] => None
  end.

(** [input.match(/\d+(:\d+)*/gi)]: the matched texts from left to right;
    the empty list stands for [null]. *)
Fixpoint time_matches_from (skip : nat) (s : jsstring) : list jsstring :=
  match s with
  | [] => []
  | _ :: rest =>
      match skip with
      | S k => time_matches_from k rest
      | O =>
          match time_here s with
          | Some n => take n s :: time_matches_from (n - 1) rest
          | None => time_matches_from 0 rest
          end
      end
  end.

Definition time_matches (input : jsstring) : list jsstring :=
  time_matches_from 0 input.

(** What a [validate] function answers: [true], or a message. *)
Inductive validation := valid | invalid (message : jsstring).

(** Lines 642 and 643, the check of the time entered. *)
Definition validate (input : jsstring) : validation :=
  match time_matches input with
  | [] => invalid (js "Please use the format 00:00")
  | _ :: _ => valid
  end.

(** A choice offered by the project question. *)
Record choice := { title : jsstring; value : jsstring }.

Definition MANUAL_ITEM : jsstring := js "__MANUAL__".

(** Lines 180 to 191: the choices made from the listing of the projects,
    a CSV text with a header row. *)
Definition project_choices (projects_csv : jsstring) : list choice :=
  let rows := map (fun row => split row (js ",")) (split projects_csv [LF]) in
  let rows := drop 1 rows in
  let options :=
    map (fun row =>
           {| title :=
                default [] (row !! 0%nat)
                  ++ (if nonempty (default [] (row !! 1%nat))
                      then js " (" ++ default [] (row !! 1%nat) ++ js ")"
                      else []);
              value := default [] (row !! 0%nat) |})
      (filter (fun cols => nonempty (default [] (cols !! 0%nat)) = true)
         rows) in
  {| title := js "Enter manually"; value := MANUAL_ITEM |} :: options.

End Init.

(** ** Directory trees *)

Module Tree.

(** The number of files in a directory entry, and in a directory. *)
Fixpoint files_in_entry (entry : dirent) : nat :=
  match entry with
  | file _ => 1
  | directory _ below => list_sum (map files_in_entry below)
  end.

Definition files_in (entries : list dirent) : nat :=
  list_sum (map files_in_entry entries).

End Tree.
Export Tree.

(** ** The notions of the specification *)

Module Spec.

(** [floor(len(line) / terminalWidth) + 1]. *)
Definition rows_of_line (terminal_width : Z) (line : jsstring) : Z :=
  (Z.of_nat (length line) / terminal_width + 1)%Z.

(** The sum of it over the lines. *)
Definition sum_of_rows (terminal_width : Z) (lines : list jsstring) : Z :=
  foldr (fun line sum => (rows_of_line terminal_width line + sum)%Z) 0%Z
    lines.

(** A token [{name}] stands at index [i] of the text: a brace, a name
    that is a run of one or more code units other than [}], and the
    closing brace. *)
Definition token_at (text : jsstring) (i : nat) (name : jsstring) : Prop :=
  ∃ before after,
    text = before ++ lbrace :: name ++ rbrace :: after
    ∧ length before = i ∧ name ≠ [] ∧ rbrace ∉ name.

(** The code unit before index [i], when [prev] is the one before the
    text. *)
Definition preceding (prev : option N) (text : jsstring) (i : nat)
    : option N :=
  match i with
  | O => prev
  | S j => text !! j
  end.

(** What stands at index [i] is escaped: a [$] is immediately before. *)
Definition escaped_at (text : jsstring) (i : nat) : Prop :=
  preceding None text i = Some dollar.

(** Index [i] lies inside a token that opened earlier: an unescaped brace
    before it, and no closing brace in between. *)
Definition enclosed_at (text : jsstring) (i : nat) : Prop :=
  ∃ k, (k < i)%nat ∧ text !! k = Some lbrace ∧ ¬ escaped_at text k
       ∧ ∀ j, (k < j < i)%nat → text !! j ≠ Some rbrace.

(** The name is the group [macro] of a match in the text of a query
    file. *)
Definition found_in (readFileSync : jsstring -> jsstring)
    (file_path : jsstring) (name : jsstring) : Prop :=
  endsWith file_path (js ".sql") = true
  ∧ name ∈ map snd (matchAll (cut_functions (readFileSync file_path))).

(** The mapping the cache holds for a namespace: the object under that
    key, nothing when the key is missing or holds a value counted as
    false, and none when it holds another primitive value. *)
Definition cached_answers (σ : store) (namespace : jsstring)
    : option (gmap jsstring answer_value) :=
  match answers σ !! namespace with
  | Some (JObj l) => Some (object_at σ l)
  | entry => if falsy entry then Some ∅ else None
  end.


(** The store is an Answer Cache: an answers object as [JSON.parse] or
    [{}] gives it and the calls of the resolver extend it.  Each object it
    refers to exists, and no object is held under two keys. *)
Definition answer_cache (σ : store) : Prop :=
  (∀ key l, answers σ !! key = Some (JObj l) → is_Some (heap σ !! l))
  ∧ (∀ key1 key2 l,
       answers σ !! key1 = Some (JObj l) →
       answers σ !! key2 = Some (JObj l) → key1 = key2).

End Spec.
(** * Properties *)

(** A closed decidable statement, settled by evaluating its decision. *)
Ltac decided := apply (bool_decide_unpack _); vm_compute; exact I.

(** ** Splitting and normalizing lines *)

Section SplitLemmas.

Lemma split_from_not_nil sep skip cur s : split_from sep skip cur s ≠ [].
Proof.
  revert skip cur. induction s as [|c rest IH]; intros skip cur; simpl.
  - discriminate.
  - destruct skip as [|k]; [|apply IH].
    destruct (starts_with sep (c :: rest)); [discriminate | apply IH].
Qed.

Lemma split_not_nil s sep : split s sep ≠ [].
Proof. apply split_from_not_nil. Qed.

Lemma last_cons_not_nil {A} (x : A) (l : list A) :
  l ≠ [] → last (x :: l) = last l.
Proof. destruct l; [congruence | reflexivity]. Qed.

(** Splitting at a single code unit never skips. *)
Lemma split_from_single_cons c cur x rest :
  split_from [c] 0 cur (x :: rest) =
    if c =? x then cur :: split_from [c] 0 [] rest
    else split_from [c] 0 (cur ++ [x]) rest.
Proof. simpl. rewrite andb_true_r. reflexivity. Qed.

Lemma split_from_single_absent c cur s :
  c ∉ s → split_from [c] 0 cur s = [cur ++ s].
Proof.
  revert cur. induction s as [|x rest IH]; intros cur Hc.
  - simpl. by rewrite app_nil_r.
  - rewrite split_from_single_cons.
    apply not_elem_of_cons in Hc as [Hx Hrest].
    destruct (N.eqb_spec c x) as [->|_]; [done|].
    rewrite IH by done. by rewrite <- app_assoc.
Qed.

Lemma split_from_single_last c cur before after :
  last (split_from [c] 0 cur (before ++ c :: after)) =
    last (split_from [c] 0 [] after).
Proof.
  revert cur. induction before as [|x before IH]; intros cur.
  - simpl app. rewrite split_from_single_cons, N.eqb_refl.
    apply last_cons_not_nil, split_from_not_nil.
  - change ((x :: before) ++ c :: after) with (x :: (before ++ c :: after)).
    rewrite split_from_single_cons.
    destruct (c =? x).
    + rewrite last_cons_not_nil by apply split_from_not_nil. apply IH.
    + apply IH.
Qed.

Lemma normalize_without_CR line : CR ∉ line → normalize line = line.
Proof.
  intros H. unfold normalize, split.
  by rewrite split_from_single_absent.
Qed.

Lemma normalize_after_CR before after :
  CR ∉ after → normalize (before ++ CR :: after) = after.
Proof.
  intros H. unfold normalize, split.
  rewrite split_from_single_last, split_from_single_absent by done.
  reflexivity.
Qed.

End SplitLemmas.

(** ** Counting rows *)

Section RowCount.

Local Open Scope Z_scope.

Lemma to_int32_small z : 0 ≤ z < 2 ^ 31 → to_int32 z = z.
Proof. intros H. unfold to_int32. rewrite Z.mod_small; lia. Qed.

Lemma div_or0_floor a w :
  0 ≤ a < 2 ^ 31 → 0 < w → div_or0 a w = a / w.
Proof.
  intros Ha Hw. unfold div_or0.
  destruct (Z.eqb_spec w 0) as [->|_]; [lia|].
  rewrite Z.quot_div_nonneg by lia.
  apply to_int32_small. split; [apply Z.div_pos; lia|].
  apply Z.le_lt_trans with a; [|lia].
  apply Z.div_le_upper_bound; nia.
Qed.

Lemma foldl_add_shift (acc : Z) (counts : list Z) :
  foldl (fun total count => total + count) acc counts =
    acc + foldl (fun total count => total + count) 0 counts.
Proof.
  revert acc. induction counts as [|c counts IH]; intros acc; simpl.
  - lia.
  - rewrite (IH (acc + c)), (IH (0 + c)). lia.
Qed.

Lemma row_count_cons w line lines :
  row_count w (line :: lines) =
    div_or0 (Z.of_nat (length line)) w + 1 + row_count w lines.
Proof. unfold row_count. simpl. apply foldl_add_shift. Qed.

Lemma row_count_sum w lines :
  0 < w →
  Forall (fun line => Z.of_nat (length line) < 2 ^ 31) lines →
  row_count w lines = Spec.sum_of_rows w lines.
Proof.
  intros Hw. induction 1 as [|line lines Hline _ IH]; [reflexivity|].
  rewrite row_count_cons, IH. simpl. unfold Spec.rows_of_line.
  rewrite div_or0_floor by lia. reflexivity.
Qed.

End RowCount.

(** ** The listeners *)

Section Listeners.

Context (toString : Buffer → jsstring) (f : flags) (h : host)
  (cmd : jsstring) (spinner : option Spinner) (o : options).

Lemma text_of_cons s c chunks :
  text_of toString s (c :: chunks) =
    (if decide (c.1 = s) then toString c.2 else [])
      ++ text_of toString s chunks.
Proof.
  unfold text_of. rewrite filter_cons. by destruct (decide (c.1 = s)).
Qed.

(** A run of data events fills the two buffers and, with [realtime], is
    echoed chunk by chunk. *)
Lemma listen_data chunks events st :
  uncaught st = None →
  listen toString f h cmd spinner o
    (map (fun c => data c.1 c.2) chunks ++ events) st =
    let after :=
      listen toString f h cmd spinner o events
        {| buf_stderr := buf_stderr st ++ text_of toString Stderr chunks;
           buf_stdout := buf_stdout st ++ text_of toString Stdout chunks;
           promise := promise st; uncaught := None |} in
    (after.1, echo o chunks ++ after.2).
Proof.
  revert st. induction chunks as [|[from chunk] chunks IH]; intros st Hst.
  - unfold text_of, echo. simpl. rewrite !app_nil_r.
    destruct st; simpl in *. subst.
    destruct (listen _ _ _ _ _ _ _ _) as [st' fx].
    by destruct (truthy (realtime o)).
  - simpl map. simpl app. cbn [listen deliver]. unfold on_data.
    destruct from; cbn [uncaught]; rewrite Hst, IH by done; cbv zeta;
      rewrite !text_of_cons; cbn [fst snd buf_stderr buf_stdout promise];
      simpl; rewrite <- ?app_assoc; unfold echo;
      by destruct (truthy (realtime o)).
Qed.

(** The listener of ['close'] when the erasure cannot throw: on a
    terminal, or with nothing to erase. *)
Lemma on_close_runs code0 st :
  isTTY h = true ∨ erasing spinner o = false
  ∨ erase_output h (buf_stdout st) (buf_stderr st) = [] →
  on_close f h cmd spinner o code0 st =
    ({| buf_stderr := buf_stderr st; buf_stdout := buf_stdout st;
        promise :=
          match promise st with
          | resolved r => resolved r
          | pending =>
              resolved {| code := code0; stderr := buf_stderr st;
                          stdout := buf_stdout st |}
          end;
        uncaught := uncaught st |},
     (if bool_decide (is_Some spinner) then [spinner_stop] else [])
       ++ (if erasing spinner o
           then erase_output h (buf_stdout st) (buf_stderr st) else [])
       ++ (if nonempty (buf_stderr st) && negb (truthy (realtime o))
              && negb (truthy (silent o))
              && negb (bool_decide (code0 = Some 0%Z))
           then [console_log (unstyled (buf_stderr st))] else [])
       ++ (if is_debug f
           then [appendFileSync (Returned cmd code0);
                 appendFileSync (Output (buf_stdout st ++ [LF]));
                 appendFileSync (Output (buf_stderr st ++ [LF]))]
           else [])).
Proof.
  intros Hok. unfold on_close. cbv zeta.
  destruct Hok as [-> | [-> | Hnone]].
  - by destruct (if erasing spinner o then _ else _).
  - reflexivity.
  - rewrite Hnone. by destruct (erasing spinner o).
Qed.

(** The listener of ['close'] otherwise: it throws before it has done
    anything. *)
Lemma on_close_throws code0 st :
  isTTY h = false → erasing spinner o = true →
  erase_output h (buf_stdout st) (buf_stderr st) ≠ [] →
  on_close f h cmd spinner o code0 st =
    ({| buf_stderr := buf_stderr st; buf_stdout := buf_stdout st;
        promise := promise st; uncaught := Some not_a_function |}, []).
Proof.
  intros Htty Herasing Hsome. unfold on_close. cbv zeta.
  rewrite Htty, Herasing.
  destruct (erase_output h (buf_stdout st) (buf_stderr st)); [done|].
  unfold erasing in Herasing.
  destruct (bool_decide (is_Some spinner)); [discriminate Herasing|done].
Qed.

Lemma on_close_cases st :
  (isTTY h = true ∨ erasing spinner o = false
   ∨ erase_output h (buf_stdout st) (buf_stderr st) = [])
  ∨ (isTTY h = false ∧ erasing spinner o = true
     ∧ erase_output h (buf_stdout st) (buf_stderr st) ≠ []).
Proof.
  destruct (isTTY h); [by left; left|].
  destruct (erasing spinner o); [|by left; right; left].
  destruct (erase_output h (buf_stdout st) (buf_stderr st));
    [by left; right; right|by right].
Qed.

Lemma deliver_never_erases e st :
  truthy (keep_output o) = true →
  Forall (fun x => is_erasure x = false)
    (deliver toString f h cmd spinner o e st).2.
Proof.
  intros Hkeep. destruct e as [from chunk|code0|]; cbn [deliver].
  - simpl. destruct (truthy (realtime o)); repeat constructor.
  - rewrite on_close_runs
      by (right; left; unfold erasing; by rewrite Hkeep, andb_false_r).
    cbn [snd]. unfold erasing. rewrite Hkeep, andb_false_r.
    repeat (apply Forall_app; split);
      repeat match goal with
             | |- context [if ?b then _ else _] => destruct b
             end; repeat constructor.
  - constructor.
Qed.

Lemma listen_Forall (P : effect → Prop) :
  (∀ e st, Forall P (deliver toString f h cmd spinner o e st).2) →
  ∀ events st, Forall P (listen toString f h cmd spinner o events st).2.
Proof.
  intros Hd events.
  induction events as [|e events IH]; intros st; simpl; [constructor|].
  pose proof (Hd e st) as He.
  destruct (deliver toString f h cmd spinner o e st) as [st1 fx1].
  destruct (uncaught st1); [done|].
  specialize (IH st1).
  destruct (listen toString f h cmd spinner o events st1) as [st2 fx2].
  apply Forall_app. by split.
Qed.

Lemma listen_never_erases events st :
  truthy (keep_output o) = true →
  Forall (fun x => is_erasure x = false)
    (listen toString f h cmd spinner o events st).2.
Proof.
  intros Hkeep. apply listen_Forall. intros e st0.
  by apply deliver_never_erases.
Qed.



End Listeners.

(** ** The command runner *)

Section Runner.

Context (toString : Buffer → jsstring) (f : flags) (h : host)
  (cmd : jsstring).

Lemma output_lines_nil out err :
  output_lines h out err = [] ↔ nonempty out || nonempty err = false.
Proof.
  unfold output_lines. split.
  - intros [H1 H2]%app_eq_nil.
    destruct (nonempty out); [by apply split_not_nil in H1|].
    destruct (nonempty err); [by apply split_not_nil in H2|]. done.
  - intros [-> ->]%orb_false_elim. done.
Qed.

(** The erasure is skipped exactly when both buffers are empty. *)
Lemma erase_output_cases out err :
  erase_output h out err =
    if nonempty out || nonempty err
    then [cursorTo 0;
          moveCursor 0
            (- row_count (columns h) (map normalize (output_lines h out err))
             + 1);
          clearScreenDown]
    else [].
Proof.
  unfold erase_output, captured_lines.
  destruct (nonempty out || nonempty err) eqn:Hany.
  - rewrite bool_decide_eq_true_2; [done|].
    rewrite length_map.
    destruct (output_lines h out err) eqn:Hl; [|simpl; lia].
    apply output_lines_nil in Hl. congruence.
  - apply output_lines_nil in Hany. by rewrite Hany.
Qed.

Lemma exec_cmd_child spinner opts chunks code0 :
  spawn_refuses cmd = false →
  exec_cmd toString f h cmd spinner opts (child chunks code0) =
    let o := effective_options f spinner opts in
    let closed :=
      on_close f h cmd spinner o code0
        {| buf_stderr := text_of toString Stderr chunks;
           buf_stdout := text_of toString Stdout chunks;
           promise := pending; uncaught := None |} in
    (before_spawn f cmd spinner ++ [spawn cmd] ++ echo o chunks ++ closed.2,
     promised (promise closed.1) (uncaught closed.1)).
Proof.
  intros Hspawn. unfold exec_cmd, child. rewrite Hspawn.
  rewrite listen_data by done. cbv zeta.
  cbn [listen deliver buf_stderr buf_stdout promise fst snd app].
  destruct (on_close _ _ _ _ _ _ _) as [st fx]. cbn [fst snd].
  destruct (uncaught st) eqn:Hu; cbn [fst snd];
    by rewrite ?app_nil_r, ?Hu.
Qed.

End Runner.




(** C9. With the diagnostic flag set the options of every call have
    [keep_output] true, whatever the caller asked for, and no call ever
    performs one of the three steps of the erasure. *)
Theorem C9_diag_forces_keep_output toString f h cmd spinner opts events :
  is_diag f = true →
  keep_output (effective_options f spinner opts) = Some true
  ∧ Forall (fun e => is_erasure e = false)
      (exec_cmd toString f h cmd spinner opts events).1.
Proof.
  intros Hdiag.
  assert (keep_output (effective_options f spinner opts) = Some true) as Hk.
  { unfold effective_options. by rewrite Hdiag. }
  split; [done|]. unfold exec_cmd.
  assert (Forall (fun e => is_erasure e = false) (before_spawn f cmd spinner))
    as Hbefore.
  { unfold before_spawn. apply Forall_app. split.
    - destruct (bool_decide _); repeat constructor.
    - destruct (is_debug f); repeat constructor. }
  destruct (spawn_refuses cmd); [done|].
  pose proof (listen_never_erases toString f h cmd spinner
                (effective_options f spinner opts) events
                {| buf_stderr := []; buf_stdout := []; promise := pending;
                   uncaught := None |})
    as Hl.
  destruct (listen _ _ _ _ _ _ _ _) as [st fx]. cbn [fst snd] in *.
  apply Forall_app. split; [done|]. constructor; [done|].
  apply Hl. by rewrite Hk.
Qed.

Lemma C9_diag_forces_keep_output_witness :
  keep_output
    (effective_options {| diag := true; debug := false |} None
       (Some {| realtime := Some true; silent := None;
                keep_output := Some false |})) = Some true
  ∧ Forall (fun e => is_erasure e = false)
      (exec_cmd ascii_toString {| diag := true; debug := false |} (posix 80)
         (js "ls") None
         (Some {| realtime := Some true; silent := None;
                  keep_output := Some false |})
         (child [(Stdout, bytes "a.txt")] (Some 0%Z))).1.
Proof.
  apply (C9_diag_forces_keep_output ascii_toString
           {| diag := true; debug := false |}).
  reflexivity.
Defined.

(** C5, as the specification states it, fails for a command that prints
    nothing: with realtime echoing, no spinner and [keep_output] false the
    call only spawns the command, and none of the three steps of the
    erasure happens.  It fails as well when the standard output is no
    terminal: the listener of ['close'] throws at the first cursor call,
    and what was echoed is not erased. *)
Lemma C5_silent_command_is_not_erased :
  let f := {| diag := false; debug := false |} in
  let echoing :=
    Some {| realtime := Some true; silent := None;
            keep_output := Some false |} in
  let effects :=
    (exec_cmd ascii_toString f (posix 80) (js "true") None echoing
       (child [] (Some 0%Z))).1 in
  let piped :=
    exec_cmd ascii_toString f posix_piped (js "ls") None echoing
      (child [(Stdout, bytes "a.txt")] (Some 0%Z)) in
  effects = [spawn (js "true")]
  ∧ Forall (fun e => is_erasure e = false) effects
  ∧ piped = ([spawn (js "ls"); write Stdout (bytes "a.txt")],
             promised pending (Some not_a_function))
  ∧ Forall (fun e => is_erasure e = false) piped.1.
Proof.
  split; [reflexivity|]. split; [repeat constructor|].
  split; [reflexivity|]. repeat constructor.
Qed.

(** C5, amended. On a terminal, with realtime echoing, no spinner,
    [keep_output] not set and no diagnostic flag, the call echoes the
    chunks as they come and, after the child has closed, performs the
    erasure (cursor to column 0, up by the row count less one, clear to the
    end of the screen) exactly when the command printed something; a
    command that printed nothing leaves the terminal as it is. *)
Theorem C5_erasure_of_echoed_output toString f h cmd o chunks code0 :
  spawn_refuses cmd = false →
  isTTY h = true →
  is_diag f = false →
  realtime o = Some true →
  truthy (keep_output o) = false →
  let out := text_of toString Stdout chunks in
  let err := text_of toString Stderr chunks in
  (exec_cmd toString f h cmd None (Some o) (child chunks code0)).1 =
    ((if is_debug f
      then [console_log (chalk_gray cmd); appendFileSync (Running cmd)]
      else [])
       ++ [spawn cmd])
      ++ map (fun c => write c.1 c.2) chunks
      ++ (if nonempty out || nonempty err
          then [cursorTo 0;
                moveCursor 0
                  (- row_count (columns h) (captured_lines h out err) + 1);
                clearScreenDown]
          else [])
      ++ (if is_debug f
          then [appendFileSync (Returned cmd code0);
                appendFileSync (Output (out ++ [LF]));
                appendFileSync (Output (err ++ [LF]))]
          else []).
Proof.
  intros Hspawn Htty Hdiag Hreal Hkeep out err.
  rewrite exec_cmd_child by done. cbv zeta. cbn [fst snd].
  assert (effective_options f None (Some o) = o) as ->.
  { unfold effective_options. rewrite Hdiag. by destruct o. }
  rewrite on_close_runs by (by left).
  unfold echo, erasing, before_spawn. cbn [buf_stderr buf_stdout snd].
  rewrite Hreal, Hkeep. cbn [truthy default negb andb bool_decide].
  rewrite bool_decide_eq_false_2 by (intros [? ?]; discriminate).
  cbn [negb andb app]. rewrite andb_false_r. cbn [app].
  rewrite erase_output_cases, <- app_assoc. reflexivity.
Qed.

Lemma C5_erasure_of_echoed_output_witness :
  (exec_cmd ascii_toString {| diag := false; debug := false |} (posix 80)
     (js "ls") None
     (Some {| realtime := Some true; silent := None;
              keep_output := Some false |})
     (child [(Stdout, bytes "a.txt")] (Some 0%Z))).1 =
    [spawn (js "ls"); write Stdout (bytes "a.txt"); cursorTo 0;
     moveCursor 0 0; clearScreenDown].
Proof.
  apply (C5_erasure_of_echoed_output ascii_toString
           {| diag := false; debug := false |}
           (posix 80) (js "ls")
           {| realtime := Some true; silent := None;
              keep_output := Some false |}
           [(Stdout, bytes "a.txt")] (Some 0%Z)); reflexivity.
Defined.
(** C6. Every line of the captured output is replaced by what follows its
    last carriage return (a line without one is kept whole) before the
    rows are counted: the row count of the erasure is taken over the
    normalized lines.  The line [progress 50%\rprogress 100%] becomes
    [progress 100%]. *)
Theorem C6_lines_keep_text_after_last_CR :
  (∀ line, CR ∉ line → normalize line = line)
  ∧ (∀ before after,
       CR ∉ after → normalize (before ++ CR :: after) = after)
  ∧ (∀ h out err,
       nonempty out || nonempty err = true →
       erase_output h out err =
         [cursorTo 0;
          moveCursor 0
            (- row_count (columns h) (map normalize (output_lines h out err))
             + 1);
          clearScreenDown])
  ∧ normalize (js "progress 50%" ++ CR :: js "progress 100%")
    = js "progress 100%".
Proof.
  split; [exact normalize_without_CR|].
  split; [exact normalize_after_CR|].
  split; [|reflexivity].
  intros h out err Hany. by rewrite erase_output_cases, Hany.
Qed.

Lemma C6_lines_keep_text_after_last_CR_witness :
  normalize (js "done") = js "done"
  ∧ normalize (js "10%" ++ CR :: js "20%") = js "20%"
  ∧ erase_output (posix 80) (js "10%" ++ CR :: js "20%") [] =
      [cursorTo 0; moveCursor 0 0; clearScreenDown].
Proof.
  destruct C6_lines_keep_text_after_last_CR as (Hwhole & Hafter & Hrows & _).
  split; [|split].
  - apply (Hwhole (js "done")).
    decided.
  - apply (Hafter (js "10%") (js "20%")).
    decided.
  - apply (Hrows (posix 80) (js "10%" ++ CR :: js "20%") []). reflexivity.
Defined.

(** C7. For a terminal of positive width the row count the runner
    computes is the sum, over the lines, of the floor of the length of the
    line over the width, plus one (the lines being strings a JavaScript
    engine can hold, shorter than 2^31): with a width of 80 a line of 85
    code units counts 2 rows, and lines of 10 and 90 code units count 3
    together. *)
Theorem C7_row_count_is_sum_of_rows :
  (∀ terminal_width lines,
     (0 < terminal_width)%Z →
     Forall (fun line => (Z.of_nat (length line) < 2 ^ 31)%Z) lines →
     row_count terminal_width lines = Spec.sum_of_rows terminal_width lines)
  ∧ (∀ line, length line = 85%nat → row_count 80 [line] = 2%Z)
  ∧ (∀ line1 line2,
       length line1 = 10%nat → length line2 = 90%nat →
       row_count 80 [line1; line2] = 3%Z).
Proof.
  split; [exact row_count_sum|].
  split.
  - intros line H. unfold row_count. simpl. by rewrite H.
  - intros line1 line2 H1 H2. unfold row_count. simpl. by rewrite H1, H2.
Qed.

Lemma C7_row_count_is_sum_of_rows_witness :
  row_count 80 [replicate 85 32; replicate 10 32; replicate 90 32] = 5%Z
  ∧ row_count 80 [replicate 85 32] = 2%Z
  ∧ row_count 80 [replicate 10 32; replicate 90 32] = 3%Z.
Proof.
  destruct C7_row_count_is_sum_of_rows as (Hsum & Hone & Htwo).
  split; [|split].
  - rewrite (Hsum 80%Z [replicate 85 32; replicate 10 32; replicate 90 32]).
    + reflexivity.
    + reflexivity.
    + repeat constructor.
  - apply (Hone (replicate 85 32)). reflexivity.
  - apply (Htwo (replicate 10 32) (replicate 90 32)); reflexivity.
Defined.

(** ** Scanning for macros *)

Section Scanning.

Import Spec.

Lemma run_not_rbrace_app s :
  s = (run_not_rbrace s).1 ++ (run_not_rbrace s).2
  ∧ rbrace ∉ (run_not_rbrace s).1.
Proof.
  induction s as [|c rest [IH1 IH2]]; simpl.
  - split; [done|]. apply not_elem_of_nil.
  - destruct (N.eqb_spec c rbrace) as [->|Hc]; simpl.
    + split; [done|]. apply not_elem_of_nil.
    + destruct (run_not_rbrace rest) as [run after]. simpl in *.
      split; [by f_equal|]. apply not_elem_of_cons. by split.
Qed.

Lemma run_not_rbrace_stop name after :
  rbrace ∉ name →
  run_not_rbrace (name ++ rbrace :: after) = (name, rbrace :: after).
Proof.
  induction name as [|c name IH]; intros Hn; simpl.
  - reflexivity.
  - apply not_elem_of_cons in Hn as [Hc Hn].
    destruct (N.eqb_spec c rbrace) as [->|_]; [done|].
    by rewrite IH.
Qed.

Lemma run_not_rbrace_after s c after :
  (run_not_rbrace s).2 = c :: after → c = rbrace.
Proof.
  induction s as [|x rest IH]; simpl; [done|].
  destruct (N.eqb_spec x rbrace) as [->|_]; simpl.
  - by intros [= <- _].
  - destruct (run_not_rbrace rest). simpl in *. exact IH.
Qed.

(** The attempt at one position succeeds exactly on an unescaped token. *)
Lemma match_here_Some prev s name :
  match_here prev s = Some name ↔
    prev ≠ Some dollar ∧ name ≠ [] ∧ (rbrace ∉ name)
    ∧ ∃ after, s = lbrace :: name ++ rbrace :: after.
Proof.
  split.
  - destruct s as [|c rest]; simpl; [done|].
    destruct (N.eqb_spec c lbrace) as [->|_]; [|done].
    destruct (bool_decide_reflect (prev = Some dollar)); [done|]. simpl.
    pose proof (run_not_rbrace_app rest) as [Happ Hnot].
    pose proof (run_not_rbrace_after rest) as Hafter.
    destruct (run_not_rbrace rest) as [macro after]. simpl in *.
    destruct macro as [|m macro]; [done|].
    destruct after as [|a after]; [done|].
    intros [= <-]. rewrite (Hafter a after eq_refl) in Happ.
    repeat split; [done|done|done|]. exists after. by rewrite Happ.
  - intros (Hprev & Hname & Hnot & after & ->). simpl.
    rewrite bool_decide_eq_false_2 by done. simpl.
    rewrite run_not_rbrace_stop by done.
    by destruct name.
Qed.

Lemma token_at_cons c text i name :
  token_at text i name → token_at (c :: text) (S i) name.
Proof.
  intros (before & after & -> & <- & Hname & Hnot).
  exists (c :: before), after. by repeat split.
Qed.

Lemma token_at_succ c text i name :
  token_at (c :: text) (S i) name → token_at text i name.
Proof.
  intros (before & after & Heq & Hlen & Hname & Hnot).
  destruct before as [|b before]; [done|]. simpl in Heq, Hlen.
  injection Heq as -> ->. injection Hlen as <-.
  exists before, after. by repeat split.
Qed.

Lemma token_at_zero text name :
  token_at text 0 name ↔
    name ≠ [] ∧ (rbrace ∉ name)
    ∧ ∃ after, text = lbrace :: name ++ rbrace :: after.
Proof.
  split.
  - intros (before & after & -> & Hlen & Hname & Hnot).
    destruct before; [|done]. repeat split; [done|done|]. by exists after.
  - intros (Hname & Hnot & after & ->). exists [], after. by repeat split.
Qed.

Lemma preceding_cons prev c text i :
  preceding (Some c) text i = preceding prev (c :: text) (S i).
Proof. by destruct i. Qed.

(** Every match is an unescaped token of the text. *)
Lemma matchAll_from_sound s prev skip pos i name :
  (i, name) ∈ matchAll_from prev skip pos s →
  ∃ k, i = (pos + k)%nat ∧ token_at s k name
       ∧ preceding prev s k ≠ Some dollar.
Proof.
  revert prev skip pos.
  induction s as [|c rest IH]; intros prev skip pos; cbn [matchAll_from].
  - by intros ?%elem_of_nil.
  - assert (∀ skip',
      (i, name) ∈ matchAll_from (Some c) skip' (S pos) rest →
      ∃ k, i = (pos + k)%nat ∧ token_at (c :: rest) k name
           ∧ preceding prev (c :: rest) k ≠ Some dollar) as Hrest.
    { intros skip' (k & -> & Htok & Hprev)%IH. exists (S k).
      split; [lia|]. split; [by apply token_at_cons|].
      by rewrite <- preceding_cons. }
    destruct skip as [|sk]; [|apply Hrest].
    destruct (match_here prev (c :: rest)) as [macro|] eqn:Hm;
      [|apply Hrest].
    intros [[= -> ->]|Hin]%elem_of_cons; [|by eapply Hrest].
    apply match_here_Some in Hm as (Hprev & Hname & Hnot & after & Heq).
    exists 0%nat. split; [lia|]. split; [|done].
    apply token_at_zero. repeat split; [done|done|]. by exists after.
Qed.

(** An unescaped token is matched when the scan is not inside an earlier
    match: every unescaped brace before it has been closed. *)
Lemma matchAll_from_complete s prev skip pos k name :
  token_at s k name →
  preceding prev s k ≠ Some dollar →
  (skip ≤ k)%nat →
  (∀ k0, (k0 < k)%nat → s !! k0 = Some lbrace →
         preceding prev s k0 ≠ Some dollar →
         ∃ j, (k0 < j < k)%nat ∧ s !! j = Some rbrace) →
  ((pos + k)%nat, name) ∈ matchAll_from prev skip pos s.
Proof.
  revert prev skip pos k.
  induction s as [|c rest IH]; intros prev skip pos k Htok Hprev Hskip Hopen.
  - destruct Htok as (before & after & Heq & _). by destruct before.
  - destruct k as [|k].
    + assert (skip = 0)%nat as -> by lia. cbn [matchAll_from].
      apply token_at_zero in Htok as (Hname & Hnot & after & Heq).
      assert (match_here prev (c :: rest) = Some name) as ->.
      { apply match_here_Some. repeat split; [done|done|done|].
        by exists after. }
      rewrite Nat.add_0_r. apply elem_of_cons. by left.
    + assert (∀ skip', (skip' ≤ k)%nat →
        ((pos + S k)%nat, name)
          ∈ matchAll_from (Some c) skip' (S pos) rest) as Hrest.
      { intros skip' Hskip'.
        replace (pos + S k)%nat with (S pos + k)%nat by lia.
        apply IH.
        - by eapply token_at_succ.
        - by rewrite (preceding_cons prev).
        - done.
        - intros k0 Hk0 Hbrace Hunesc.
          destruct (Hopen (S k0)) as (j & Hj & Hclose);
            [lia|done|by rewrite <- preceding_cons|].
          destruct j as [|j]; [lia|]. exists j. split; [lia|done]. }
      cbn [matchAll_from]. destruct skip as [|sk]; [|apply Hrest; lia].
      destruct (match_here prev (c :: rest)) as [macro|] eqn:Hm;
        [|apply Hrest; lia].
      apply elem_of_cons. right. apply Hrest.
      apply match_here_Some in Hm as (Hp & _ & Hnot & after & Heq).
      injection Heq as -> ->.
      destruct (Hopen 0%nat) as (j & Hj & Hclose); [lia|done|done|].
      destruct j as [|j]; [lia|]. simpl in Hclose.
      destruct (decide (j < length macro)%nat) as [Hlt|Hge]; [|lia].
      rewrite lookup_app_l in Hclose by done.
      apply list_elem_of_lookup_2 in Hclose. done.
Qed.

Lemma matchAll_sound text i name :
  (i, name) ∈ matchAll text → token_at text i name ∧ ¬ escaped_at text i.
Proof.
  intros (k & -> & Htok & Hprev)%matchAll_from_sound. by split.
Qed.

Lemma closing_brace_between (text : jsstring) k0 i :
  (∃ j, (k0 < j < i)%nat ∧ text !! j = Some rbrace)
  ∨ (∀ j, (k0 < j < i)%nat → text !! j ≠ Some rbrace).
Proof.
  induction i as [|i [(j & Hj & Hclose)|Hnone]].
  - right. lia.
  - left. exists j. split; [lia|done].
  - destruct (decide (text !! i = Some rbrace)) as [Hi|Hi].
    + destruct (decide (k0 < i)%nat) as [Hlt|Hge].
      * left. exists i. split; [lia|done].
      * right. lia.
    + right. intros j Hj.
      destruct (decide (j = i)) as [->|Hne]; [done|]. apply Hnone. lia.
Qed.

Lemma matchAll_complete text i name :
  token_at text i name → ¬ escaped_at text i → ¬ enclosed_at text i →
  (i, name) ∈ matchAll text.
Proof.
  intros Htok Hesc Henc.
  apply (matchAll_from_complete text None 0 0 i name); [done|done|lia|].
  intros k0 Hk0 Hbrace Hunesc.
  destruct (closing_brace_between text k0 i) as [Hj|Hnone]; [done|].
  exfalso. apply Henc. exists k0. by repeat split.
Qed.

End Scanning.

(** ** The keys of [macro] *)

Section Discovery.

Import Spec.

Implicit Types (macro : macro_object) (name n : jsstring).

Lemma assign_null_keys macro name n :
  n ∈ own_keys (assign_null macro name) → n ∈ own_keys macro ∨ n = name.
Proof.
  unfold assign_null, own_keys. destruct (_ && _); cbn [keys]; [by left|].
  destruct (bool_decide _); [by left|].
  rewrite !elem_of_list_to_set, elem_of_app, list_elem_of_singleton. tauto.
Qed.

Lemma assign_null_mono macro name n :
  n ∈ own_keys macro → n ∈ own_keys (assign_null macro name).
Proof.
  unfold assign_null, own_keys. destruct (_ && _); cbn [keys]; [done|].
  destruct (bool_decide _); [done|].
  rewrite !elem_of_list_to_set, elem_of_app. tauto.
Qed.

Lemma assign_null_new macro name :
  name ≠ js "__proto__" → name ∈ own_keys (assign_null macro name).
Proof.
  intros Hname. unfold assign_null, own_keys.
  rewrite bool_decide_eq_false_2 by done. cbn [andb keys].
  destruct (bool_decide_reflect (name ∈ keys macro)) as [Hin|_];
    rewrite elem_of_list_to_set; [done|].
  rewrite elem_of_app, list_elem_of_singleton. tauto.
Qed.


Lemma foldl_assign_null_keys names macro n :
  n ∈ own_keys (foldl assign_null macro names) →
  n ∈ own_keys macro ∨ n ∈ names.
Proof.
  revert macro. induction names as [|name names IH]; intros macro; simpl.
  - by left.
  - intros [Hhere|Hnames]%IH.
    + apply assign_null_keys in Hhere as [?| ->]; [by left|].
      right. apply elem_of_cons. by left.
    + right. apply elem_of_cons. by right.
Qed.

Lemma foldl_assign_null_mono names macro n :
  n ∈ own_keys macro → n ∈ own_keys (foldl assign_null macro names).
Proof.
  revert macro. induction names as [|name names IH]; intros macro; simpl.
  - done.
  - intros H. by apply IH, assign_null_mono.
Qed.

Lemma foldl_assign_null_new names macro n :
  n ∈ names → n ≠ js "__proto__" →
  n ∈ own_keys (foldl assign_null macro names).
Proof.
  revert macro. induction names as [|name names IH]; intros macro; simpl.
  - by intros ?%elem_of_nil.
  - intros [->|Hin]%elem_of_cons Hn.
    + by apply foldl_assign_null_mono, assign_null_new.
    + by apply IH.
Qed.

(** The keys that [Object.keys] lists are the own keys. *)
Lemma Object_keys_own macro n : n ∈ Object_keys macro ↔ n ∈ own_keys macro.
Proof.
  unfold Object_keys, own_keys.
  rewrite elem_of_app, elem_of_list_to_set, list_elem_of_filter.
  change (map snd ?l) with (snd <$> l). rewrite list_elem_of_fmap.
  split.
  - intros [([i m] & -> & Hin)|[_ Hin]]; [|done].
    rewrite merge_sort_Permutation in Hin.
    apply list_elem_of_omap in Hin as (k & Hk & Heq).
    destruct (array_index k); simpl in Heq; [|done].
    by injection Heq as _ <-.
  - intros Hin. destruct (array_index n) as [i|] eqn:Hi; [left|by right].
    exists (i, n). split; [done|].
    rewrite merge_sort_Permutation. apply list_elem_of_omap.
    exists n. split; [done|]. by rewrite Hi.
Qed.




Context (readFileSync : jsstring → jsstring).

Abbreviation visit := (MacroResolver.visit readFileSync).
Abbreviation found_in := (Spec.found_in readFileSync).

Lemma foldl_visit_keys filelist macro n :
  n ∈ own_keys (foldl visit macro filelist) →
  n ∈ own_keys macro ∨ ∃ file_path, file_path ∈ filelist ∧ found_in file_path n.
Proof.
  revert macro.
  induction filelist as [|file_path filelist IH]; intros macro; simpl.
  - by left.
  - intros [Hhere|(fp & Hfp & Hfound)]%IH.
    + unfold visit in Hhere.
      destruct (endsWith file_path (js ".sql")) eqn:Hsql; [|by left].
      apply foldl_assign_null_keys in Hhere as [?|Hin]; [by left|].
      right. exists file_path. split; [apply elem_of_cons; by left|done].
    + right. exists fp. split; [apply elem_of_cons; by right|done].
Qed.

Lemma foldl_visit_mono filelist macro n :
  n ∈ own_keys macro → n ∈ own_keys (foldl visit macro filelist).
Proof.
  revert macro.
  induction filelist as [|file_path filelist IH]; intros macro; simpl.
  - done.
  - intros H. apply IH. unfold visit.
    destruct (endsWith file_path (js ".sql")); [|done].
    by apply foldl_assign_null_mono.
Qed.

Lemma foldl_visit_new filelist macro file_path n :
  file_path ∈ filelist → found_in file_path n → n ≠ js "__proto__" →
  n ∈ own_keys (foldl visit macro filelist).
Proof.
  revert macro.
  induction filelist as [|fp filelist IH]; intros macro; simpl.
  - by intros ?%elem_of_nil.
  - intros [->|Hin]%elem_of_cons [Hsql Hfound] Hn.
    + apply foldl_visit_mono. unfold visit. rewrite Hsql.
      by apply foldl_assign_null_new.
    + by apply IH.
Qed.


Lemma discover_keys filelist n :
  n ∈ own_keys (discover readFileSync filelist) →
  ∃ file_path, file_path ∈ filelist ∧ found_in file_path n.
Proof.
  unfold discover. intros [H|H]%foldl_visit_keys; [|done].
  unfold own_keys in H. simpl in H. by apply elem_of_empty in H.
Qed.

Lemma discover_new filelist file_path n :
  file_path ∈ filelist → found_in file_path n → n ≠ js "__proto__" →
  n ∈ own_keys (discover readFileSync filelist).
Proof. unfold discover. apply foldl_visit_new. Qed.

Lemma in_groups text n :
  n ∈ map snd (matchAll text) ↔ ∃ i, (i, n) ∈ matchAll text.
Proof.
  split.
  - intros ([i m] & -> & Hin)%list_elem_of_fmap. by exists i.
  - intros [i Hin]. apply list_elem_of_fmap. by exists (i, n).
Qed.

End Discovery.

(** ** The FUNCTIONS marker *)

Section Marker.

Import Spec.

(** The index found is that of the leftmost match. *)
Lemma search_ci_first p pos s i :
  search_ci p pos s = Some i →
  ∃ k, i = (pos + k)%nat
       ∧ starts_with_ci p (drop k s) = true
       ∧ ∀ j, (j < k)%nat → starts_with_ci p (drop j s) = false.
Proof.
  revert pos. induction s as [|c rest IH]; intros pos.
  - simpl. destruct (starts_with_ci p []) eqn:Hp; [|done].
    intros [= <-]. exists 0%nat. split; [lia|]. split; [done|]. lia.
  - cbn [search_ci]. destruct (starts_with_ci p (c :: rest)) eqn:Hp.
    + intros [= <-]. exists 0%nat. split; [lia|]. split; [done|]. lia.
    + intros (k & -> & Hk & Hbefore)%IH. exists (S k).
      split; [lia|]. split; [done|].
      intros [|j] Hj; [done|]. apply Hbefore. lia.
Qed.

(** When the marker is found at a positive index the text scanned is what
    stands before it; when it is found at index 0, or not at all, the text
    is scanned whole. *)
Lemma cut_functions_cases text :
  match search_ci (js "FUNCTIONS") 0 text with
  | Some (S index) => cut_functions text = take (S index) text
  | Some O => cut_functions text = text
  | None => cut_functions text = text
  end.
Proof.
  unfold cut_functions, substring0.
  by destruct (search_ci _ _ _) as [[|index]|].
Qed.

(** With the marker at a positive index each match ends before it. *)
Lemma matches_end_before_marker text index i name :
  search_ci (js "FUNCTIONS") 0 text = Some (S index) →
  (i, name) ∈ matchAll (cut_functions text) →
  token_at text i name ∧ (i + length name + 2 ≤ S index)%nat.
Proof.
  intros Hm Hin. pose proof (cut_functions_cases text) as Hcut.
  rewrite Hm in Hcut. rewrite Hcut in Hin.
  apply matchAll_sound in Hin as [(before & after & Heq & Hlen & Hn & Hr) _].
  split.
  - exists before, (after ++ drop (S index) text).
    split; [|done].
    rewrite <- (take_drop (S index) text) at 1. rewrite Heq.
    rewrite <- app_assoc. simpl.
    rewrite <- (app_assoc name (rbrace :: after)). reflexivity.
  - apply (f_equal length) in Heq.
    rewrite length_take, !length_app in Heq. cbn [length] in Heq.
    rewrite length_app in Heq. cbn [length] in Heq. lia.
Qed.

End Marker.

(** ** The Placeholder Set *)

(** C4, as the specification states it, fails for a token inside a longer
    one: in [{a{b}] the token [{b}] stands unescaped at index 2, but the
    scan captures [a{b] from index 0 and resumes behind the closing brace,
    so [b] is not a key of [macro]. *)
Lemma C4_token_inside_a_token_is_not_captured :
  let text := js "{a{b}" in
  Spec.token_at text 2 (js "b")
  ∧ ¬ Spec.escaped_at text 2
  ∧ matchAll text = [(0%nat, js "a{b")]
  ∧ js "b" ∉ own_keys (discover (fun _ => text) [js "q.sql"]).
Proof.
  split; [|split; [|split]].
  - exists (js "{a"), []. repeat split; [done|].
    decided.
  - unfold Spec.escaped_at. simpl. discriminate.
  - reflexivity.
  - decided.
Qed.

(** C4, amended. A key of [macro] is always the name of a token that is
    not preceded by [$], so a token [${name}] alone never puts [name] among
    the keys.  An unescaped token [{name}] of a query file puts [name]
    among the keys when it does not lie inside an earlier token (each
    unescaped brace before it is closed before it); the name [__proto__]
    is left aside.  For the text [${foo} {bar}] the keys are exactly
    [bar]. *)
Theorem C4_unescaped_tokens_are_the_keys :
  (∀ readFileSync filelist name,
     name ∈ own_keys (discover readFileSync filelist) →
     ∃ file_path i,
       file_path ∈ filelist
       ∧ endsWith file_path (js ".sql") = true
       ∧ Spec.token_at (cut_functions (readFileSync file_path)) i name
       ∧ ¬ Spec.escaped_at (cut_functions (readFileSync file_path)) i)
  ∧ (∀ readFileSync filelist file_path i name,
       file_path ∈ filelist →
       endsWith file_path (js ".sql") = true →
       Spec.token_at (cut_functions (readFileSync file_path)) i name →
       ¬ Spec.escaped_at (cut_functions (readFileSync file_path)) i →
       ¬ Spec.enclosed_at (cut_functions (readFileSync file_path)) i →
       name ≠ js "__proto__" →
       name ∈ own_keys (discover readFileSync filelist))
  ∧ matchAll (js "${foo} {bar}") = [(7%nat, js "bar")]
  ∧ own_keys (discover (fun _ => js "${foo} {bar}") [js "q.sql"])
    = {[ js "bar" ]}.
Proof.
  split; [|split; [|split]].
  - intros readFileSync filelist name
      (file_path & Hin & Hsql & (i & Hm)%in_groups)%discover_keys.
    apply matchAll_sound in Hm as [Htok Hesc].
    by exists file_path, i.
  - intros readFileSync filelist file_path i name Hin Hsql Htok Hesc Henc Hn.
    apply (discover_new readFileSync filelist file_path); [done| |done].
    split; [done|]. apply in_groups. exists i.
    by apply matchAll_complete.
  - reflexivity.
  - vm_compute. reflexivity.
Qed.

Lemma C4_unescaped_tokens_are_the_keys_witness :
  js "y" ∈ own_keys
             (discover (fun _ => js "select ${x} from {y}") [js "/q/a.sql"])
  ∧ ∃ file_path i,
      file_path ∈ [js "/q/a.sql"]
      ∧ endsWith file_path (js ".sql") = true
      ∧ Spec.token_at (cut_functions (js "select ${x} from {y}")) i (js "y")
      ∧ ¬ Spec.escaped_at (cut_functions (js "select ${x} from {y}")) i.
Proof.
  destruct C4_unescaped_tokens_are_the_keys as (Hsound & Hcomplete & _).
  assert (js "y" ∈ own_keys
            (discover (fun _ => js "select ${x} from {y}") [js "/q/a.sql"]))
    as Hy.
  { apply (Hcomplete (fun _ => js "select ${x} from {y}") [js "/q/a.sql"]
             (js "/q/a.sql") 17%nat (js "y")).
    - apply list_elem_of_singleton. reflexivity.
    - reflexivity.
    - exists (js "select ${x} from "), []. repeat split; [done|].
      decided.
    - unfold Spec.escaped_at. simpl. discriminate.
    - intros (k & Hk & Hbrace & Hesc & Hnone).
      do 17 (destruct k as [|k]; [first [discriminate Hbrace | by apply Hesc]|]).
      lia.
    - discriminate. }
  split; [exact Hy|].
  exact (Hsound (fun _ => js "select ${x} from {y}") [js "/q/a.sql"]
           (js "y") Hy).
Defined.

(** The name left aside: the first assignment to [__proto__] only removes
    the prototype of [macro], the second makes a key. *)
Example proto_is_a_key_the_second_time :
  own_keys (discover (fun _ => js "{__proto__}") [js "q.sql"]) = ∅
  ∧ own_keys (discover (fun _ => js "{__proto__} {__proto__}") [js "q.sql"])
    = {[ js "__proto__" ]}.
Proof. split; vm_compute; reflexivity. Qed.

(** C1, at the input where the code departs from it: a query file that
    begins with the marker.  The match has index 0, which the test
    [fn_match?.index] takes for no match, so the text is scanned whole and
    [b], which occurs only behind the marker, becomes a key of [macro]. *)
Theorem C1_marker_at_index_0_is_not_cut :
  let text := js "FUNCTIONS {b}" in
  search_ci (js "FUNCTIONS") 0 text = Some 0%nat
  ∧ cut_functions text = text
  ∧ matchAll (cut_functions text) = [(10%nat, js "b")]
  ∧ own_keys (discover (fun _ => text) [js "q.sql"]) = {[ js "b" ]}.
Proof. repeat split; vm_compute; reflexivity. Qed.


(** ** Asking the operator *)

Section Asking.

Context (operator : jsstring → jsstring).

Abbreviation names_of qs := (map name qs).




End Asking.

(** ** Resolving the macros *)

Section Resolution.

Context (path_resolve : jsstring → jsstring → jsstring)
  (inquirer_prompt :
     list question → gmap jsstring answer_value →
     list jsstring * option (gmap jsstring answer_value))
  (tree : list dirent) (readFileSync : jsstring → jsstring)
  (folder_path prefix : jsstring).

Abbreviation found :=
  (discover readFileSync (readDir path_resolve folder_path tree)).
Abbreviation questions_of macro :=
  (map (fun name => {| name := name; message := name |}) (Object_keys macro)).
Abbreviation resolve σ :=
  (getMacroValues path_resolve inquirer_prompt tree readFileSync folder_path
     prefix σ).

Lemma no_questions macro :
  bool_decide (0 < length (questions_of macro))%nat = false
  ↔ own_keys macro = ∅.
Proof.
  rewrite length_map, bool_decide_eq_false. split.
  - intros H. apply leibniz_equiv, elem_of_equiv_empty. intros n Hn.
    apply Object_keys_own in Hn.
    destruct (Object_keys macro); [by apply elem_of_nil in Hn|].
    simpl in H. lia.
  - intros Hempty.
    destruct (Object_keys macro) as [|n ns] eqn:Hkeys; [simpl; lia|].
    assert (n ∈ own_keys macro) as Hn.
    { apply Object_keys_own. rewrite Hkeys. apply elem_of_cons. by left. }
    rewrite Hempty in Hn. by apply elem_of_empty in Hn.
Qed.

Lemma prompt_namespace_eq questions l said σ :
  prompt_namespace inquirer_prompt questions l said σ =
    let settled := inquirer_prompt questions (object_at σ l) in
    (match settled.2 with
     | Some hash => returned hash
     | None => rejected
     end,
     {| answers := answers σ;
        heap :=
          <[l := match settled.2 with
                 | Some hash => Object_assign (object_at σ l) hash
                 | None => object_at σ l
                 end]> (heap σ) |},
     said ++ map asked settled.1).
Proof.
  unfold prompt_namespace, prompt. cbv zeta.
  by destruct (inquirer_prompt questions (object_at σ l)) as [names [hash|]].
Qed.

Lemma getMacroValues_empty σ :
  own_keys found = ∅ → resolve σ = (returned ∅, σ, []).
Proof.
  intros H%no_questions. unfold getMacroValues. cbv zeta.
  by rewrite H.
Qed.

(** The call when a key holds an object: the questions go to that
    object. *)
Lemma getMacroValues_object σ l :
  own_keys found ≠ ∅ →
  answers σ !! prefix = Some (JObj l) →
  resolve σ =
    prompt_namespace inquirer_prompt (questions_of found) l
      (if forallb (fun n => has_property n (object_at σ l))
            (Object_keys found)
       then [] else notice folder_path) σ.
Proof.
  intros Hne Hl. unfold getMacroValues. cbv zeta.
  destruct (bool_decide (0 < length (questions_of found))%nat) eqn:Hopt;
    [|by apply no_questions in Hopt].
  rewrite Hl. cbn [falsy]. f_equal.
  generalize (Object_keys found). intros names.
  induction names as [|n names IH]; [done|].
  cbn [map forallb]. rewrite filter_cons. cbn [name].
  destruct (has_property n (object_at σ l)); cbn [negb andb].
  - rewrite decide_False by (intros []). exact IH.
  - rewrite decide_True by done.
    rewrite bool_decide_eq_true_2 by (simpl; lia). done.
Qed.

(** The call when the key is missing or holds a value counted as false:
    a new object is stored under the key first. *)
Lemma getMacroValues_fresh σ :
  own_keys found ≠ ∅ →
  falsy (answers σ !! prefix) = true →
  resolve σ =
    prompt_namespace inquirer_prompt (questions_of found)
      (fresh (dom (heap σ))) (notice folder_path)
      {| answers := <[prefix := JObj (fresh (dom (heap σ)))]> (answers σ);
         heap := <[fresh (dom (heap σ)) := ∅]> (heap σ) |}.
Proof.
  intros Hne Hf. unfold getMacroValues. cbv zeta.
  destruct (bool_decide (0 < length (questions_of found))%nat) eqn:Hopt;
    [|by apply no_questions in Hopt].
  by rewrite Hf.
Qed.

(** A primitive value that counts as true under the namespace. *)
Lemma getMacroValues_primitive σ :
  own_keys found ≠ ∅ →
  Spec.cached_answers σ prefix = None →
  resolve σ = (TypeError, σ, []).
Proof.
  intros Hne Hnone. unfold getMacroValues. cbv zeta.
  destruct (bool_decide (0 < length (questions_of found))%nat) eqn:Hopt;
    [|by apply no_questions in Hopt].
  unfold Spec.cached_answers in Hnone.
  destruct (answers σ !! prefix) as [[| | | |l]|] eqn:Hentry;
    try discriminate Hnone;
    destruct (falsy _) eqn:Hf; try discriminate Hnone; done.
Qed.

(** What the call does to the store, in each of its courses. *)
Lemma getMacroValues_store σ :
  let σ' := (resolve σ).1.2 in
  σ' = σ
  ∨ (∃ l hash, answers σ !! prefix = Some (JObj l)
               ∧ σ' = {| answers := answers σ;
                         heap := <[l := hash]> (heap σ) |})
  ∨ (∃ l hash, heap σ !! l = None
               ∧ σ' = {| answers := <[prefix := JObj l]> (answers σ);
                         heap := <[l := hash]> (heap σ) |}).
Proof.
  cbv zeta.
  destruct (decide (own_keys found = ∅)) as [Hempty|Hne].
  { left. by rewrite getMacroValues_empty. }
  destruct (falsy (answers σ !! prefix)) eqn:Hf.
  - right. right. rewrite getMacroValues_fresh, prompt_namespace_eq by done.
    cbn [fst snd answers heap]. eexists _, _. split.
    + apply not_elem_of_dom, is_fresh.
    + by rewrite insert_insert_eq.
  - destruct (answers σ !! prefix) as [[| | | |l]|] eqn:Hentry.
    1-4,6: left; unfold getMacroValues; cbv zeta;
      rewrite Hentry, Hf; by destruct (bool_decide _).
    right. left.
    rewrite (getMacroValues_object σ l Hne Hentry), prompt_namespace_eq.
    cbn [fst snd]. by eexists _, _.
Qed.

(** The mapping of the namespace after a call that returned. *)
Lemma getMacroValues_returned σ cached value σ' said :
  Spec.cached_answers σ prefix = Some cached →
  resolve σ = (returned value, σ', said) →
  Spec.cached_answers σ' prefix = Some (Object_assign cached value)
  ∧ (own_keys found ≠ ∅ →
     ∃ l, answers σ' !! prefix = Some (JObj l)
          ∧ object_at σ' l = Object_assign cached value).
Proof.
  intros Hcached.
  destruct (decide (own_keys found = ∅)) as [Hempty|Hne].
  { rewrite getMacroValues_empty by done. intros [= <- <- <-].
    split; [|done]. rewrite Hcached. unfold Object_assign.
    by rewrite (left_id_L ∅ (∪)). }
  unfold Spec.cached_answers in Hcached.
  destruct (falsy (answers σ !! prefix)) eqn:Hf.
  - assert (cached = ∅) as ->.
    { destruct (answers σ !! prefix) as [[]|]; simpl in Hf, Hcached;
        try rewrite Hf in Hcached; try discriminate Hf;
        by injection Hcached. }
    rewrite getMacroValues_fresh, prompt_namespace_eq by done. cbv zeta.
    unfold object_at at 1 2 3. cbn [heap answers]. rewrite lookup_insert_eq.
    cbn [default].
    destruct (inquirer_prompt _ _).2 as [hash|]; [|done].
    intros [= <- <- <-].
    unfold Spec.cached_answers, object_at. cbn [heap answers].
    rewrite !lookup_insert_eq. split; [done|]. intros _.
    eexists. by rewrite !lookup_insert_eq.
  - destruct (answers σ !! prefix) as [[| | | |l]|] eqn:Hentry;
      try (rewrite Hf in Hcached; discriminate Hcached);
      try discriminate Hf.
    injection Hcached as <-.
    rewrite (getMacroValues_object σ l Hne Hentry), prompt_namespace_eq.
    cbv zeta.
    destruct (inquirer_prompt _ _).2 as [hash|]; [|done].
    intros [= <- <- <-].
    unfold Spec.cached_answers. cbn [heap answers]. rewrite Hentry.
    assert (∀ hash0 : gmap jsstring answer_value,
              object_at {| answers := answers σ;
                           heap := <[l := hash0]> (heap σ) |} l = hash0)
      as Hat.
    { intros hash0. unfold object_at. cbn [heap].
      by rewrite lookup_insert_eq. }
    rewrite Hat. split; [done|]. intros _. by exists l.
Qed.

End Resolution.

(** C8. Query files without a match leave [macro] without keys, and so
    does a directory without query files; and when [macro] has no key the
    call returns an empty mapping, asks and prints nothing, and leaves the
    store as it was, with no entry made for the namespace. *)
Theorem C8_no_placeholders_no_questions :
  (∀ readFileSync filelist,
     (∀ file_path,
        file_path ∈ filelist → endsWith file_path (js ".sql") = true →
        matchAll (cut_functions (readFileSync file_path)) = []) →
     own_keys (discover readFileSync filelist) = ∅)
  ∧ (∀ path_resolve inquirer_prompt tree readFileSync folder_path prefix σ,
       own_keys
         (discover readFileSync (readDir path_resolve folder_path tree)) = ∅ →
       getMacroValues path_resolve inquirer_prompt tree readFileSync
         folder_path prefix σ =
         (returned ∅, σ, [])).
Proof.
  split.
  - intros readFileSync filelist Hnone.
    apply leibniz_equiv, elem_of_equiv_empty. intros n Hn.
    apply discover_keys in Hn as (file_path & Hin & Hsql & Hfound).
    rewrite (Hnone file_path Hin Hsql) in Hfound.
    by apply elem_of_nil in Hfound.
  - intros. by apply getMacroValues_empty.
Qed.

Lemma C8_no_placeholders_no_questions_witness :
  let tree := [file (js "README.md");
               directory (js "sub") [file (js "count.sql")]] in
  let readFileSync := fun _ : jsstring => js "SELECT 1 AS ${one} FROM t" in
  let σ := {| answers := {[ js "name" := JStr (js "wf") ]}; heap := ∅ |} in
  own_keys (discover readFileSync (readDir slash (js "/q") tree)) = ∅
  ∧ getMacroValues slash (fun _ given => ([], Some given)) tree readFileSync
      (js "/q") (js "ads_macro") σ
    = (returned ∅, σ, []).
Proof.
  intros tree readFileSync σ.
  destruct C8_no_placeholders_no_questions as [Hfiles Hcall].
  assert (own_keys (discover readFileSync (readDir slash (js "/q") tree)) = ∅)
    as Hempty.
  { apply Hfiles. intros file_path Hin Hsql. reflexivity. }
  split; [exact Hempty|].
  apply (Hcall slash (fun _ given => ([], Some given)) tree readFileSync
           (js "/q") (js "ads_macro") σ).
  exact Hempty.
Defined.


Section Answers.

Context (path_resolve : jsstring → jsstring → jsstring)
  (inquirer_prompt :
     list question → gmap jsstring answer_value →
     list jsstring * option (gmap jsstring answer_value))
  (operator : jsstring → jsstring)
  (tree : list dirent) (readFileSync : jsstring → jsstring)
  (folder_path prefix : jsstring).

Abbreviation found :=
  (discover readFileSync (readDir path_resolve folder_path tree)).
Abbreviation questions_of macro :=
  (map (fun name => {| name := name; message := name |}) (Object_keys macro)).
Abbreviation resolve σ :=
  (getMacroValues path_resolve inquirer_prompt tree readFileSync folder_path
     prefix σ).






End Answers.



(** C10. A call for the namespace [prefix] on an Answer Cache leaves every
    other key with the value it had, and when that value is an object the
    object is as it was; what the call leaves is again an Answer Cache. *)
Theorem C10_other_keys_keep_their_objects
    path_resolve inquirer_prompt tree readFileSync folder_path prefix σ
    other :
  Spec.answer_cache σ →
  other ≠ prefix →
  let σ' :=
    (getMacroValues path_resolve inquirer_prompt tree readFileSync
       folder_path prefix σ).1.2 in
  answers σ' !! other = answers σ !! other
  ∧ (∀ l, answers σ !! other = Some (JObj l) → heap σ' !! l = heap σ !! l)
  ∧ Spec.answer_cache σ'.
Proof.
  intros [Hexists Hsingle] Hother.
  destruct (getMacroValues_store path_resolve inquirer_prompt tree
              readFileSync folder_path prefix σ)
    as [->|[(l0 & hash & Hentry & ->)|(l0 & hash & Hfresh & ->)]];
    cbn [answers heap].
  - done.
  - split; [done|]. split.
    + intros l Hl. apply lookup_insert_ne. intros ->.
      apply Hother. by eapply Hsingle.
    + split; cbn [answers heap]; [|done].
      intros key l Hl. rewrite lookup_insert_is_Some'. right. by eapply Hexists.
  - split; [by rewrite lookup_insert_ne|]. split.
    + intros l Hl. apply lookup_insert_ne. intros ->.
      apply Hexists in Hl as [? Hl]. congruence.
    + split; cbn [answers heap].
      * intros key l. rewrite lookup_insert_is_Some'.
        destruct (decide (key = prefix)) as [->|Hne].
        -- rewrite lookup_insert_eq. intros [= ->]. by left.
        -- rewrite lookup_insert_ne by done. intros Hl. right.
           by eapply Hexists.
      * assert (∀ key, answers σ !! key ≠ Some (JObj l0)) as Hnew.
        { intros key [? Hl]%Hexists. congruence. }
        intros key1 key2 l.
        destruct (decide (key1 = prefix)) as [->|Hne1];
          destruct (decide (key2 = prefix)) as [->|Hne2]; [done|..].
        -- rewrite lookup_insert_eq, lookup_insert_ne by done.
           intros [= <-] H2. by apply Hnew in H2.
        -- rewrite lookup_insert_eq, lookup_insert_ne by done.
           intros H1 [= <-]. by apply Hnew in H1.
        -- rewrite !lookup_insert_ne by done. apply Hsingle.
Qed.

Lemma C10_other_keys_keep_their_objects_witness :
  let library := fun (questions : list question)
                     (given : gmap jsstring answer_value) =>
    (map name questions,
     Some (<[js "y" := answer_text (js "2")]> given)) in
  let σ := {| answers := {[ js "ads_macro" := JObj 1%positive;
                            js "bq_macro" := JObj 2%positive;
                            js "name" := JStr (js "wf") ]};
              heap := {[ 1%positive := {[ js "x" := answer_text (js "1") ]};
                         2%positive :=
                           {[ js "dataset" := answer_text (js "ds") ]} ]} |} in
  let σ' :=
    (getMacroValues slash library [file (js "q.sql")]
       (fun _ => js "SELECT {x}, {y} FROM t") (js "/q") (js "ads_macro")
       σ).1.2 in
  answers σ' !! js "bq_macro" = Some (JObj 2%positive)
  ∧ heap σ' !! 2%positive = Some {[ js "dataset" := answer_text (js "ds") ]}
  ∧ answers σ' !! js "name" = Some (JStr (js "wf"))
  ∧ heap σ' !! 1%positive ≠ heap σ !! 1%positive.
Proof.
  intros library σ σ'.
  assert (∀ key l, answers σ !! key = Some (JObj l) →
            (key = js "ads_macro" ∧ l = 1%positive)
            ∨ (key = js "bq_macro" ∧ l = 2%positive)) as Hkeys.
  { intros key l Hl. unfold σ in Hl. cbn [answers] in Hl.
    apply lookup_insert_Some in Hl as [[<- [= <-]]|[_ Hl]]; [by left|].
    apply lookup_insert_Some in Hl as [[<- [= <-]]|[_ Hl]]; [by right|].
    apply lookup_singleton_Some in Hl as [_ Hl]. discriminate Hl. }
  assert (Spec.answer_cache σ) as Hcache.
  { split.
    - intros key l Hl.
      destruct (Hkeys _ _ Hl) as [[-> ->]|[-> ->]]; by eexists.
    - intros key1 key2 l H1 H2.
      destruct (Hkeys _ _ H1) as [[-> ->]|[-> ->]];
        destruct (Hkeys _ _ H2) as [[-> ?]|[-> ?]]; done. }
  destruct (C10_other_keys_keep_their_objects slash library
              [file (js "q.sql")]
              (fun _ => js "SELECT {x}, {y} FROM t") (js "/q")
              (js "ads_macro") σ (js "bq_macro") Hcache)
    as (Hkey & Hobject & _).
  - discriminate.
  - split; [exact Hkey|]. split; [|split].
    + transitivity (heap σ !! 2%positive);
        [apply Hobject; reflexivity | reflexivity].
    + destruct (C10_other_keys_keep_their_objects slash library
                  [file (js "q.sql")]
                  (fun _ => js "SELECT {x}, {y} FROM t") (js "/q")
                  (js "ads_macro") σ (js "name") Hcache) as (Hname & _).
      * discriminate.
      * exact Hname.
    + vm_compute. discriminate.
Defined.

(** Why an Answer Cache holds no object under two keys: a key that holds
    the very object of the namespace sees its new entries. *)
Example shared_object_follows_the_namespace :
  let library := fun (questions : list question)
                     (given : gmap jsstring answer_value) =>
    (map name questions,
     Some (<[js "x" := answer_text (js "1")]> given)) in
  let σ := {| answers := {[ js "a" := JObj 1%positive;
                            js "b" := JObj 1%positive ]};
              heap := {[ 1%positive := ∅ ]} |} in
  let σ' :=
    (getMacroValues slash library [file (js "q.sql")] (fun _ => js "{x}")
       (js "/q") (js "a") σ).1.2 in
  answers σ' !! js "b" = Some (JObj 1%positive)
  ∧ heap σ' !! 1%positive = Some {[ js "x" := answer_text (js "1") ]}.
Proof. split; vm_compute; reflexivity. Qed.

(** * More of the code *)

(** ** The runner: echo, log, promise *)

Section RunnerMore.

Context (toString : Buffer → jsstring) (f : flags) (h : host)
  (cmd : jsstring) (spinner : option Spinner).

Lemma written_app s fx1 fx2 :
  written s (fx1 ++ fx2) = written s fx1 ++ written s fx2.
Proof. apply omap_app. Qed.

Lemma logged_app fx1 fx2 : logged (fx1 ++ fx2) = logged fx1 ++ logged fx2.
Proof. apply omap_app. Qed.

Lemma shown_app fx1 fx2 : shown (fx1 ++ fx2) = shown fx1 ++ shown fx2.
Proof. apply omap_app. Qed.

Lemma written_echo s o chunks :
  truthy (realtime o) = true →
  written s (echo o chunks) = map snd (filter (fun c => c.1 = s) chunks).
Proof.
  intros Hr. unfold echo. rewrite Hr.
  induction chunks as [|[to chunk] chunks IH]; [done|].
  rewrite filter_cons. unfold written in *. simpl.
  destruct (decide (to = s)); simpl; [f_equal|]; exact IH.
Qed.

Lemma logged_echo o chunks : logged (echo o chunks) = [].
Proof.
  unfold echo. destruct (truthy (realtime o)); [|done].
  by induction chunks.
Qed.

Lemma shown_echo o chunks : shown (echo o chunks) = [].
Proof.
  unfold echo. destruct (truthy (realtime o)); [|done].
  by induction chunks.
Qed.

Lemma written_erase s out err : written s (erase_output h out err) = [].
Proof. unfold erase_output. by destruct (bool_decide _). Qed.

Lemma logged_erase out err : logged (erase_output h out err) = [].
Proof. unfold erase_output. by destruct (bool_decide _). Qed.

Lemma shown_erase out err : shown (erase_output h out err) = [].
Proof. unfold erase_output. by destruct (bool_decide _). Qed.

Lemma written_on_close s o code0 st :
  written s (on_close f h cmd spinner o code0 st).2 = [].
Proof.
  destruct (on_close_cases h spinner o st) as [Hok|(Htty & Her & Hsome)].
  - rewrite on_close_runs by done. cbn [snd]. rewrite !written_app.
    repeat match goal with
           | |- context [if ?b then _ else _] => destruct b
           end; rewrite ?written_erase; reflexivity.
  - by rewrite on_close_throws.
Qed.

Lemma written_before s :
  written s (before_spawn f cmd spinner ++ [spawn cmd]) = [].
Proof.
  unfold before_spawn. destruct (bool_decide _), (is_debug f); reflexivity.
Qed.

Lemma deliver_with_spinner_quiet (sp : Spinner) o e st :
  truthy (realtime o) = false →
  Forall (fun x => is_write x = false ∧ is_erasure x = false)
    (deliver toString f h cmd (Some sp) o e st).2.
Proof.
  intros Hquiet. destruct e as [from chunk|code0|]; cbn [deliver].
  - simpl. rewrite Hquiet. constructor.
  - rewrite on_close_runs
      by (right; left; unfold erasing; by rewrite Hquiet, andb_false_r).
    cbn [snd]. unfold erasing. rewrite Hquiet, andb_false_r. cbn [andb].
    repeat (apply Forall_app; split);
      repeat match goal with
             | |- context [if ?b then _ else _] => destruct b
             end; by repeat constructor.
  - constructor.
Qed.

(** On a terminal, and for a child that was started, no listener throws,
    and the promise is pending as long as no ['close'] has come. *)
Lemma listen_on_a_terminal o events st :
  isTTY h = true →
  uncaught st = None →
  Forall (fun e => is_error e = false) events →
  uncaught (listen toString f h cmd spinner o events st).1 = None
  ∧ (promise (listen toString f h cmd spinner o events st).1 = pending ↔
     promise st = pending ∧ Forall (fun e => is_close e = false) events).
Proof.
  intros Htty. revert st.
  induction events as [|e events IH]; intros st Hst Hev.
  - simpl. split; [done|]. split; [by intros H|by intros [H _]].
  - apply Forall_cons in Hev as [He Hev]. cbn [listen].
    assert (uncaught (deliver toString f h cmd spinner o e st).1 = None
            ∧ (promise (deliver toString f h cmd spinner o e st).1 = pending
               ↔ promise st = pending ∧ is_close e = false)) as [Hu Hp].
    { destruct e as [from chunk|code0|]; cbn [deliver]; [| |done].
      - destruct from; simpl; tauto.
      - rewrite on_close_runs by (by left). simpl. split; [done|].
        destruct (promise st); split; try done; by intros []. }
    destruct (deliver toString f h cmd spinner o e st) as [st1 fx1].
    cbn [fst] in Hu, Hp. rewrite Hu.
    destruct (IH st1 Hu Hev) as [IHu IHp].
    destruct (listen toString f h cmd spinner o events st1) as [st2 fx2].
    cbn [fst] in *. split; [done|].
    rewrite IHp, Hp, Forall_cons. tauto.
Qed.

End RunnerMore.

(** X1. With a spinner a call never erases the terminal, and unless the
    caller passes [realtime: true] itself it passes no chunk of the child
    on to the streams of the process either: whatever the child sends, the
    effects hold no [write] of a chunk and none of the three steps of the
    erasure. *)
Theorem X1_spinner_call_neither_echoes_nor_erases
    toString f h cmd (sp : Spinner) opts events :
  realtime (default no_options opts) ≠ Some true →
  Forall (fun e => is_write e = false ∧ is_erasure e = false)
    (exec_cmd toString f h cmd (Some sp) opts events).1.
Proof.
  intros Hreal.
  assert (truthy (realtime (effective_options f (Some sp) opts)) = false)
    as Hquiet.
  { unfold effective_options.
    rewrite (bool_decide_eq_true_2 (is_Some (Some sp))) by (by eexists).
    destruct (realtime (default no_options opts))
      as [[]|] eqn:Hr; [done| |].
    - rewrite bool_decide_eq_false_2 by done. cbn [andb].
      destruct (is_diag f); cbn [realtime]; by rewrite ?Hr.
    - rewrite bool_decide_eq_true_2 by done. cbn [andb].
      by destruct (is_diag f). }
  assert (Forall (fun e => is_write e = false ∧ is_erasure e = false)
            (before_spawn f cmd (Some sp))) as Hbefore.
  { unfold before_spawn. apply Forall_app. split.
    - destruct (bool_decide _); by repeat constructor.
    - destruct (is_debug f); by repeat constructor. }
  unfold exec_cmd. destruct (spawn_refuses cmd); [done|].
  pose proof (listen_Forall toString f h cmd (Some sp)
                (effective_options f (Some sp) opts)
                (fun e => is_write e = false ∧ is_erasure e = false)
                (fun e st0 =>
                   deliver_with_spinner_quiet toString f h cmd sp _ e st0
                     Hquiet)
                events
                {| buf_stderr := []; buf_stdout := []; promise := pending;
                   uncaught := None |}) as Hl.
  destruct (listen _ _ _ _ _ _ _ _) as [st fx]. cbn [fst snd] in *.
  apply Forall_app. split; [done|]. by constructor.
Qed.

Lemma X1_spinner_call_neither_echoes_nor_erases_witness :
  Forall (fun e => is_write e = false ∧ is_erasure e = false)
    (exec_cmd ascii_toString {| diag := false; debug := true |} (posix 80)
       (js "git clone") (Some (new_Spinner (js "Cloning"))) None
       (child [(Stdout, bytes "done"); (Stderr, bytes "warning")]
          (Some 1%Z))).1.
Proof.
  apply (X1_spinner_call_neither_echoes_nor_erases ascii_toString
           {| diag := false; debug := true |} (posix 80) (js "git clone")
           (new_Spinner (js "Cloning")) None).
  discriminate.
Defined.

(** X2. With [realtime: true], and a command that [spawn] accepts, the
    buffers written to each of the two streams are the chunks the child
    sent on it, in the order they came.  On a terminal the promise is
    resolved when the child closes, and the text its value holds for a
    stream is what these buffers give when each is decoded by itself. *)
Theorem X2_echo_is_what_the_child_sent
    toString f h cmd spinner o chunks code0 s :
  spawn_refuses cmd = false →
  realtime o = Some true →
  let run := exec_cmd toString f h cmd spinner (Some o) (child chunks code0) in
  written s run.1 = map snd (filter (fun c => c.1 = s) chunks)
  ∧ (isTTY h = true →
     ∃ r, run.2 = promised (resolved r) None
          ∧ concat (map toString (written s run.1))
            = match s with Stdout => stdout r | Stderr => stderr r end).
Proof.
  intros Hspawn Hreal run.
  assert (truthy (realtime (effective_options f spinner (Some o))) = true)
    as Hecho.
  { unfold effective_options. simpl.
    rewrite (bool_decide_eq_false_2 (realtime o = None)) by congruence.
    rewrite andb_false_r.
    destruct (is_diag f); cbn [realtime]; by rewrite Hreal. }
  assert (written s run.1 = map snd (filter (fun c => c.1 = s) chunks))
    as Hwritten.
  { unfold run. rewrite exec_cmd_child by done. cbv zeta. cbn [fst].
    rewrite (app_assoc (before_spawn f cmd spinner)).
    rewrite written_app, written_before, written_app.
    rewrite written_echo, written_on_close by done.
    by rewrite app_nil_r. }
  split; [done|]. intros Htty.
  rewrite Hwritten. unfold run. rewrite exec_cmd_child by done.
  cbv zeta. rewrite on_close_runs by (by left).
  cbn [fst snd promise uncaught]. eexists. split; [reflexivity|].
  rewrite map_map. by destruct s.
Qed.

Lemma X2_echo_is_what_the_child_sent_witness :
  written Stdout
    (exec_cmd ascii_toString {| diag := false; debug := false |} (posix 80)
       (js "deploy") None
       (Some {| realtime := Some true; silent := None; keep_output := None |})
       (child [(Stdout, bytes "a"); (Stderr, bytes "x");
               (Stdout, bytes "b")] (Some 0%Z))).1
  = [bytes "a"; bytes "b"].
Proof.
  apply (X2_echo_is_what_the_child_sent ascii_toString
           {| diag := false; debug := false |} (posix 80) (js "deploy") None
           {| realtime := Some true; silent := None; keep_output := None |}
           [(Stdout, bytes "a"); (Stderr, bytes "x"); (Stdout, bytes "b")]
           (Some 0%Z) Stdout); reflexivity.
Defined.

(** X3. On a terminal, for a command that [spawn] accepts and a child that
    emits no ['error'], no listener throws, and the promise stays pending
    exactly as long as the child has not closed: it is resolved as soon as
    the events hold a ['close'], and a child that only sends data leaves it
    pending for good. *)
Theorem X3_promise_pending_until_close
    toString f h cmd spinner opts events :
  spawn_refuses cmd = false →
  isTTY h = true →
  Forall (fun e => is_error e = false) events →
  (∃ state,
     (exec_cmd toString f h cmd spinner opts events).2 = promised state None)
  ∧ ((exec_cmd toString f h cmd spinner opts events).2
       = promised pending None
     ↔ Forall (fun e => is_close e = false) events).
Proof.
  intros Hspawn Htty Hev. unfold exec_cmd. rewrite Hspawn.
  destruct (listen_on_a_terminal toString f h cmd spinner
              (effective_options f spinner opts) events
              {| buf_stderr := []; buf_stdout := []; promise := pending;
                 uncaught := None |} Htty eq_refl Hev) as [Hu Hp].
  destruct (listen _ _ _ _ _ _ _ _) as [st fx]. cbn [fst snd promise] in *.
  rewrite Hu. split; [by eexists|].
  split.
  - intros [= Hpending]. by apply Hp.
  - intros Hnone. f_equal. by apply Hp.
Qed.

Lemma X3_promise_pending_until_close_witness :
  (exec_cmd ascii_toString {| diag := false; debug := false |} (posix 80)
     (js "sleep") None None
     [data Stdout (bytes "1"); data Stderr (bytes "2")]).2
  = promised pending None.
Proof.
  apply (X3_promise_pending_until_close ascii_toString
           {| diag := false; debug := false |}
           (posix 80) (js "sleep") None None
           [data Stdout (bytes "1"); data Stderr (bytes "2")]);
    [reflexivity|reflexivity|repeat constructor..].
Defined.

(** X4. For a command that [spawn] accepts, on a terminal or when the call
    has nothing to erase: without the debug and the diagnostic flag a call
    appends nothing to the log file; with either, it appends four blocks in
    this order: the command about to run, then after the child closed the
    code, the standard output and the error output, each followed by a line
    feed. *)
Theorem X4_log_transcript toString f h cmd spinner opts chunks code0 :
  spawn_refuses cmd = false →
  isTTY h = true ∨ erasing spinner (effective_options f spinner opts) = false →
  logged (exec_cmd toString f h cmd spinner opts (child chunks code0)).1 =
    if debug f || diag f
    then [Running cmd; Returned cmd code0;
          Output (text_of toString Stdout chunks ++ [LF]);
          Output (text_of toString Stderr chunks ++ [LF])]
    else [].
Proof.
  intros Hspawn Hok.
  rewrite exec_cmd_child by done. cbv zeta. cbn [fst].
  rewrite on_close_runs by tauto. cbn [snd buf_stderr buf_stdout].
  rewrite !logged_app, logged_echo. unfold before_spawn.
  rewrite !logged_app. unfold is_debug.
  destruct (debug f || diag f);
    repeat match goal with
           | |- context [if ?b then _ else _] => destruct b
           end; rewrite ?logged_erase; reflexivity.
Qed.

Lemma X4_log_transcript_witness :
  logged
    (exec_cmd ascii_toString {| diag := false; debug := true |} posix_piped
       (js "make") None None
       (child [(Stdout, bytes "ok"); (Stderr, bytes "warn")] (Some 2%Z))).1
  = [Running (js "make"); Returned (js "make") (Some 2%Z);
     Output (js "ok" ++ [LF]); Output (js "warn" ++ [LF])].
Proof.
  apply (X4_log_transcript ascii_toString {| diag := false; debug := true |}
           posix_piped (js "make") None None
           [(Stdout, bytes "ok"); (Stderr, bytes "warn")] (Some 2%Z)).
  - reflexivity.
  - right. reflexivity.
Defined.

(** ** Lines: splitting, joining, normalizing, counting *)

Section LinesMore.

Lemma starts_with_app p s :
  starts_with p s = true → s = p ++ drop (length p) s.
Proof.
  revert s. induction p as [|a p IH]; intros [|b s]; simpl; try done.
  intros [Hab Hp]%andb_true_iff. apply N.eqb_eq in Hab as ->.
  f_equal. by apply IH.
Qed.

Lemma join_cons piece pieces sep :
  pieces ≠ [] → join (piece :: pieces) sep = piece ++ sep ++ join pieces sep.
Proof. by destruct pieces. Qed.

Lemma join_split_from sep skip cur s :
  sep ≠ [] →
  join (split_from sep skip cur s) sep = cur ++ drop skip s.
Proof.
  intros Hsep. revert skip cur.
  induction s as [|c rest IH]; intros skip cur.
  - simpl. by rewrite drop_nil, app_nil_r.
  - cbn [split_from]. destruct skip as [|k]; [|by rewrite IH].
    destruct (starts_with sep (c :: rest)) eqn:Hm.
    + rewrite join_cons by apply split_from_not_nil. rewrite IH.
      apply starts_with_app in Hm. destruct sep as [|a sep]; [done|].
      replace (length (a :: sep) - 1)%nat with (length sep)
        by (simpl; lia).
      simpl in Hm. injection Hm as <- Hrest. simpl. by rewrite <- Hrest.
    + rewrite IH. simpl. by rewrite <- app_assoc.
Qed.

(** What [normalize] keeps is the end of the line, without any carriage
    return. *)
Lemma last_split_single_suffix c cur s x :
  c ∉ cur →
  last (split_from [c] 0 cur s) = Some x →
  (∃ before, cur ++ s = before ++ x) ∧ c ∉ x.
Proof.
  revert cur. induction s as [|y rest IH]; intros cur Hcur.
  - simpl. intros [= <-]. split; [|done]. exists []. by rewrite app_nil_r.
  - rewrite split_from_single_cons. destruct (N.eqb_spec c y) as [<-|Hne].
    + rewrite last_cons_not_nil by apply split_from_not_nil.
      intros [[before Hb] Hx]%IH; [|apply not_elem_of_nil].
      split; [|done]. exists (cur ++ c :: before).
      simpl in Hb. rewrite Hb. by rewrite <- app_assoc.
    + intros [[before Hb] Hx]%IH.
      * split; [|done]. exists before. rewrite <- Hb.
        by rewrite <- app_assoc.
      * rewrite elem_of_app, list_elem_of_singleton. tauto.
Qed.

Lemma normalize_suffix line :
  (∃ before, line = before ++ normalize line) ∧ CR ∉ normalize line.
Proof.
  unfold normalize, split.
  destruct (last (split_from [CR] 0 [] line)) as [x|] eqn:Hlast.
  - apply last_split_single_suffix in Hlast; [|apply not_elem_of_nil].
    simpl. exact Hlast.
  - apply last_None in Hlast. by apply split_from_not_nil in Hlast.
Qed.

Lemma normalize_length line : (length (normalize line) ≤ length line)%nat.
Proof.
  destruct (normalize_suffix line) as [[before Hb] _].
  rewrite Hb at 2. rewrite length_app. lia.
Qed.

Lemma split_from_lengths sep skip cur s :
  Forall (fun piece => (length piece ≤ length cur + length s)%nat)
    (split_from sep skip cur s).
Proof.
  revert skip cur. induction s as [|c rest IH]; intros skip cur.
  - simpl. constructor; [lia|constructor].
  - cbn [split_from]. destruct skip as [|k].
    + destruct (starts_with sep (c :: rest)).
      * constructor; [simpl; lia|].
        eapply Forall_impl; [apply IH|]. simpl. intros; lia.
      * eapply Forall_impl; [apply IH|]. simpl. intros piece.
        rewrite length_app. simpl. lia.
    + eapply Forall_impl; [apply IH|]. simpl. intros; lia.
Qed.

Lemma captured_lines_lengths h out err :
  Forall (fun line =>
            (length line ≤ Nat.max (length out) (length err))%nat)
    (captured_lines h out err).
Proof.
  unfold captured_lines, output_lines. rewrite map_app.
  apply Forall_app. split; apply Forall_map.
  - destruct (nonempty out); [|constructor].
    eapply Forall_impl; [apply split_from_lengths|]. simpl. intros piece Hp.
    pose proof (normalize_length piece). lia.
  - destruct (nonempty err); [|constructor].
    eapply Forall_impl; [apply split_from_lengths|]. simpl. intros piece Hp.
    pose proof (normalize_length piece). lia.
Qed.

Lemma row_count_at_least w lines :
  (0 ≤ w)%Z →
  Forall (fun line => (Z.of_nat (length line) < 2 ^ 31)%Z) lines →
  (Z.of_nat (length lines) ≤ row_count w lines)%Z.
Proof.
  intros Hw. induction 1 as [|line lines Hline _ IH]; [done|].
  rewrite row_count_cons. simpl length.
  assert (0 ≤ div_or0 (Z.of_nat (length line)) w)%Z; [|lia].
  unfold div_or0. destruct (Z.eqb_spec w 0); [lia|].
  rewrite to_int32_small; [apply Z.quot_pos; lia|].
  split; [apply Z.quot_pos; lia|].
  apply Z.le_lt_trans with (Z.of_nat (length line)); [|done].
  rewrite Z.quot_div_nonneg by lia.
  apply Z.div_le_upper_bound; nia.
Qed.

End LinesMore.

(** X5. Splitting at a separator that is not empty loses nothing: joining
    the pieces with the separator gives the text back.  So the lines taken
    from the captured output, joined with the line terminator, are the
    output itself. *)
Theorem X5_join_of_split_is_the_text s sep :
  sep ≠ [] → join (split s sep) sep = s.
Proof.
  intros Hsep. unfold split. rewrite join_split_from by done.
  by rewrite drop_0.
Qed.

Lemma X5_join_of_split_is_the_text_witness :
  join (split (js "a;;b;;;c;;") (js ";;")) (js ";;") = js "a;;b;;;c;;".
Proof.
  apply (X5_join_of_split_is_the_text (js "a;;b;;;c;;") (js ";;")).
  discriminate.
Defined.

(** X6. What [normalize] keeps of a line is an end of that line and holds
    no carriage return; so it is never longer than the line, and
    normalizing twice changes nothing more. *)
Theorem X6_normalized_line_is_a_clean_suffix line :
  (∃ before, line = before ++ normalize line)
  ∧ (CR ∉ normalize line)
  ∧ (length (normalize line) ≤ length line)%nat
  ∧ normalize (normalize line) = normalize line.
Proof.
  destruct (normalize_suffix line) as [Hsuffix Hclean].
  split; [done|]. split; [done|]. split; [apply normalize_length|].
  by apply normalize_without_CR.
Qed.

(** X7. When the terminal width is not negative and the captured output
    is shorter than 2^31 code units, every line counts for at least one
    row: the row count is at least the number of lines, and the erasure
    moves the cursor by no column and by no row downwards. *)
Theorem X7_erasure_moves_the_cursor_up h out err dx dy :
  (0 ≤ columns h)%Z →
  (Z.of_nat (length out) < 2 ^ 31)%Z →
  (Z.of_nat (length err) < 2 ^ 31)%Z →
  (Z.of_nat (length (captured_lines h out err))
   ≤ row_count (columns h) (captured_lines h out err))%Z
  ∧ (moveCursor dx dy ∈ erase_output h out err →
     dx = 0%Z
     ∧ (dy ≤ 1 - Z.of_nat (length (captured_lines h out err)))%Z
     ∧ (dy ≤ 0)%Z).
Proof.
  intros Hw Hout Herr.
  assert (Z.of_nat (length (captured_lines h out err))
          ≤ row_count (columns h) (captured_lines h out err))%Z as Hrows.
  { apply row_count_at_least; [done|].
    eapply Forall_impl; [apply captured_lines_lengths|].
    simpl. intros line Hline. lia. }
  split; [done|]. unfold erase_output.
  destruct (bool_decide_reflect
              (0 < length (captured_lines h out err))%nat) as [Hlen|_].
  - intros Hin. apply elem_of_cons in Hin as [Hin|Hin]; [discriminate Hin|].
    apply elem_of_cons in Hin as [Hin|Hin].
    + injection Hin as -> ->. split; [done|]. lia.
    + apply list_elem_of_singleton in Hin. discriminate Hin.
  - by intros ?%elem_of_nil.
Qed.

Lemma X7_erasure_moves_the_cursor_up_witness :
  (Z.of_nat (length (captured_lines (posix 80) (js "one") (js "two")))
   ≤ row_count 80 (captured_lines (posix 80) (js "one") (js "two")))%Z
  ∧ (moveCursor 0 (-1) ∈ erase_output (posix 80) (js "one") (js "two") →
     0%Z = 0%Z ∧ (-1 ≤ 1 - 2)%Z ∧ (-1 ≤ 0)%Z).
Proof.
  apply (X7_erasure_moves_the_cursor_up (posix 80) (js "one") (js "two")
           0 (-1)); [done|reflexivity|reflexivity].
Defined.

(** ** Scanning: the order of the matches, the marker *)

Section ScanningMore.

Import Spec.

Lemma matchAll_from_index s prev skip pos i name :
  (i, name) ∈ matchAll_from prev skip pos s → (pos + skip ≤ i)%nat.
Proof.
  revert prev skip pos.
  induction s as [|c rest IH]; intros prev skip pos; cbn [matchAll_from].
  - by intros ?%elem_of_nil.
  - destruct skip as [|k].
    + destruct (match_here prev (c :: rest)) as [macro|].
      * intros [[= -> ->]|Hin%IH]%elem_of_cons; lia.
      * intros Hin%IH. lia.
    + intros Hin%IH. lia.
Qed.

Lemma matchAll_from_apart s prev skip pos earlier i1 n1 later i2 n2 :
  matchAll_from prev skip pos s = earlier ++ (i1, n1) :: later →
  (i2, n2) ∈ later →
  (i1 + length n1 + 2 ≤ i2)%nat.
Proof.
  revert prev skip pos earlier.
  induction s as [|c rest IH]; intros prev skip pos earlier;
    cbn [matchAll_from].
  - by destruct earlier.
  - destruct skip as [|k]; [|apply IH].
    destruct (match_here prev (c :: rest)) as [macro|]; [|apply IH].
    destruct earlier as [|first earlier]; simpl.
    + intros [= <- <- <-] Hin%matchAll_from_index. lia.
    + intros [= _ Heq]. by eapply IH.
Qed.

Lemma starts_with_ci_app p s more :
  starts_with_ci p s = true → starts_with_ci p (s ++ more) = true.
Proof.
  revert s. induction p as [|a p IH]; intros [|b s]; simpl; try done.
  intros [-> Hp]%andb_true_iff. simpl. by apply IH.
Qed.

Lemma starts_with_ci_length p s :
  starts_with_ci p s = true → (length p ≤ length s)%nat.
Proof.
  revert s. induction p as [|a p IH]; intros [|b s]; simpl; try done;
    [lia|].
  intros [_ Hp%IH]%andb_true_iff. lia.
Qed.

Lemma search_ci_nowhere p pos s :
  (∀ j, starts_with_ci p (drop j s) = false) → search_ci p pos s = None.
Proof.
  revert pos. induction s as [|c rest IH]; intros pos Hno.
  - pose proof (Hno 0%nat) as H0. simpl in *. by rewrite H0.
  - pose proof (Hno 0%nat) as H0. rewrite drop_0 in H0.
    cbn [search_ci]. rewrite H0. apply IH.
    intros j. apply (Hno (S j)).
Qed.

(** Before the first match of the literal there is no match of it. *)
Lemma no_match_before_the_first p s index :
  p ≠ [] →
  search_ci p 0 s = Some index →
  search_ci p 0 (take index s) = None.
Proof.
  intros Hp (k & -> & _ & Hfirst)%search_ci_first. simpl.
  apply search_ci_nowhere. intros j.
  destruct (starts_with_ci p (drop j (take k s))) eqn:Hm; [|done].
  pose proof (starts_with_ci_length _ _ Hm) as Hlen.
  rewrite length_drop, length_take in Hlen.
  assert (0 < length p)%nat by (destruct p; [done|simpl; lia]).
  assert (j < k)%nat as Hj by lia.
  rewrite <- (Hfirst j Hj), <- (drop_take_drop s j k) by lia.
  symmetry. by apply starts_with_ci_app.
Qed.

End ScanningMore.

(** X8. The matches of a text come in the order of their index and do not
    overlap: a later match begins at or after the end of an earlier one,
    its closing brace included. *)
Theorem X8_matches_do_not_overlap text earlier i1 n1 later i2 n2 :
  matchAll text = earlier ++ (i1, n1) :: later →
  (i2, n2) ∈ later →
  (i1 + length n1 + 2 ≤ i2)%nat.
Proof. apply matchAll_from_apart. Qed.

Lemma X8_matches_do_not_overlap_witness :
  (0 + length (js "a{b") + 2 ≤ 6)%nat.
Proof.
  apply (X8_matches_do_not_overlap (js "{a{b} {c}") []
           0%nat (js "a{b") [(6%nat, js "c")] 6%nat (js "c")).
  - reflexivity.
  - apply list_elem_of_singleton. reflexivity.
Defined.

(** X9. When the first FUNCTIONS marker of a script (in any case of the
    letters) stands at an index that is not 0, the text scanned is the
    text before the marker, it holds no marker any more, and every match
    is a token of the script that ends before the marker.  For every text,
    cutting what has been cut changes nothing. *)
Theorem X9_scan_stops_at_the_marker :
  (∀ text index,
     search_ci (js "FUNCTIONS") 0 text = Some (S index) →
     cut_functions text = take (S index) text
     ∧ search_ci (js "FUNCTIONS") 0 (cut_functions text) = None
     ∧ ∀ i name,
         (i, name) ∈ matchAll (cut_functions text) →
         Spec.token_at text i name
         ∧ (i + length name + 2 ≤ S index)%nat)
  ∧ (∀ text, cut_functions (cut_functions text) = cut_functions text).
Proof.
  assert (∀ text index,
            search_ci (js "FUNCTIONS") 0 text = Some (S index) →
            cut_functions text = take (S index) text
            ∧ search_ci (js "FUNCTIONS") 0 (cut_functions text) = None)
    as Hcut.
  { intros text index Hm.
    pose proof (cut_functions_cases text) as Hc. rewrite Hm in Hc.
    split; [done|]. rewrite Hc.
    by apply no_match_before_the_first. }
  split.
  - intros text index Hm. destruct (Hcut text index Hm) as [Hc Hnone].
    split; [done|]. split; [done|].
    intros i name. by apply matches_end_before_marker.
  - intros text.
    destruct (search_ci (js "FUNCTIONS") 0 text) as [[|index]|] eqn:Hm.
    + pose proof (cut_functions_cases text) as Hc. rewrite Hm in Hc.
      by rewrite Hc.
    + destruct (Hcut text index Hm) as [_ Hnone].
      pose proof (cut_functions_cases (cut_functions text)) as Hc.
      by rewrite Hnone in Hc.
    + pose proof (cut_functions_cases text) as Hc. rewrite Hm in Hc.
      by rewrite Hc.
Qed.

Lemma X9_scan_stops_at_the_marker_witness :
  cut_functions (js "SELECT {a} functions {b}") = js "SELECT {a} "
  ∧ search_ci (js "FUNCTIONS") 0
      (cut_functions (js "SELECT {a} functions {b}")) = None.
Proof.
  destruct X9_scan_stops_at_the_marker as [Hcut _].
  destruct (Hcut (js "SELECT {a} functions {b}") 10%nat) as (H1 & H2 & _).
  - reflexivity.
  - split; [exact H1|exact H2].
Defined.

(** ** The files of a directory *)

(** Induction over a directory tree, with the hypothesis for every entry
    of a directory. *)
Fixpoint dirent_nested_ind (P : dirent → Prop)
    (Hfile : ∀ name, P (file name))
    (Hdir : ∀ name below, Forall P below → P (directory name below))
    (entry : dirent) : P entry :=
  match entry with
  | file name => Hfile name
  | directory name below =>
      Hdir name below
        ((fix each (l : list dirent) : Forall P l :=
            match l with
            | [] => List.Forall_nil P
            | e :: l' =>
                List.Forall_cons P e l' (dirent_nested_ind P Hfile Hdir e)
                  (each l')
            end) below)
  end.

Section ReadDir.

Context (path_resolve : jsstring → jsstring → jsstring).

Lemma elem_of_flat_map {A B} (g : A → list B) (l : list A) (y : B) :
  y ∈ flat_map g l ↔ ∃ x, x ∈ l ∧ y ∈ g x.
Proof.
  rewrite list_elem_of_In, in_flat_map.
  split; intros (x & Hx & Hy); exists x;
    by rewrite ?list_elem_of_In in *.
Qed.

Lemma length_flat_map_sum {A B} (g : A → list B) (l : list A) :
  length (flat_map g l) = list_sum (map (fun x => length (g x)) l).
Proof.
  induction l as [|x l IH]; [done|].
  simpl. by rewrite length_app, IH.
Qed.

Lemma readDir_entry_count entry :
  ∀ dirpath,
    length (readDir_entry path_resolve dirpath entry) = files_in_entry entry.
Proof.
  induction entry as [name|name below IH] using dirent_nested_ind;
    intros dirpath; cbn [readDir_entry files_in_entry]; [done|].
  rewrite length_flat_map_sum. f_equal.
  induction IH as [|e below He _ IHbelow]; [done|].
  simpl. by rewrite He, IHbelow.
Qed.

End ReadDir.

(** X10. [readDir] lists each file of the tree once, whatever
    [path.resolve] makes of the names: it returns as many paths as the tree
    has files, where a directory counts for the files below it and an
    empty one for none; a file of the directory is listed under the path
    resolved from the directory and its name, and what is listed for a
    directory below is listed for the directory. *)
Theorem X10_readDir_lists_each_file path_resolve dirpath entries :
  length (readDir path_resolve dirpath entries) = files_in entries
  ∧ (∀ name,
       file name ∈ entries →
       path_resolve dirpath name ∈ readDir path_resolve dirpath entries)
  ∧ (∀ name below p,
       directory name below ∈ entries →
       p ∈ readDir path_resolve (path_resolve dirpath name) below →
       p ∈ readDir path_resolve dirpath entries).
Proof.
  split; [|split].
  - unfold readDir, files_in. rewrite length_flat_map_sum. f_equal.
    apply map_ext. intros e. apply readDir_entry_count.
  - intros name Hin. unfold readDir. apply elem_of_flat_map.
    exists (file name). split; [done|]. by apply list_elem_of_singleton.
  - intros name below p Hin Hp. unfold readDir. apply elem_of_flat_map.
    by exists (directory name below).
Qed.

Lemma X10_readDir_lists_each_file_witness :
  let tree := [file (js "a.sql");
               directory (js "sub") [file (js "b.sql"); directory (js "e") []];
               directory (js "empty") []] in
  length (readDir slash (js "/q") tree) = 2%nat
  ∧ js "/q/a.sql" ∈ readDir slash (js "/q") tree
  ∧ js "/q/sub/b.sql" ∈ readDir slash (js "/q") tree.
Proof.
  intros tree.
  destruct (X10_readDir_lists_each_file slash (js "/q") tree)
    as (Hcount & Hfile & Hbelow).
  split; [exact Hcount|]. split.
  - apply (Hfile (js "a.sql")). apply elem_of_cons. by left.
  - apply (Hbelow (js "sub") [file (js "b.sql"); directory (js "e") []]).
    + apply elem_of_cons. right. apply elem_of_cons. by left.
    + apply elem_of_cons. by left.
Defined.

(** ** The keys of [macro], again *)

Section DiscoveryMore.

Lemma foldl_visit_agree read1 read2 filelist macro :
  (∀ file_path,
     file_path ∈ filelist → endsWith file_path (js ".sql") = true →
     read1 file_path = read2 file_path) →
  foldl (visit read1) macro filelist = foldl (visit read2) macro filelist.
Proof.
  revert macro.
  induction filelist as [|file_path filelist IH]; intros macro Hagree;
    [done|].
  simpl. rewrite IH.
  - f_equal. unfold visit.
    destruct (endsWith file_path (js ".sql")) eqn:Hsql; [|done].
    rewrite (Hagree file_path); [done| |done]. apply elem_of_cons. by left.
  - intros fp Hin. apply Hagree. apply elem_of_cons. by right.
Qed.

End DiscoveryMore.

(** X11. Apart from the name [__proto__], whether a name is a key of
    [macro] depends only on which files there are: it is one exactly when
    some query file has a match with that name, so the order of the files
    and a file listed twice make no difference. *)
Theorem X11_keys_do_not_depend_on_the_order readFileSync filelist1 filelist2
    name :
  (∀ file_path, file_path ∈ filelist1 ↔ file_path ∈ filelist2) →
  name ≠ js "__proto__" →
  (name ∈ own_keys (discover readFileSync filelist1) ↔
   name ∈ own_keys (discover readFileSync filelist2)).
Proof.
  intros Hsame Hname.
  assert (∀ l1 l2,
            (∀ file_path, file_path ∈ l1 → file_path ∈ l2) →
            name ∈ own_keys (discover readFileSync l1) →
            name ∈ own_keys (discover readFileSync l2)) as Hincl.
  { intros l1 l2 Hsub (file_path & Hin & Hfound)%discover_keys.
    apply (discover_new readFileSync l2 file_path); [|done|done].
    by apply Hsub. }
  split; apply Hincl; intros file_path; by apply Hsame.
Qed.

Lemma X11_keys_do_not_depend_on_the_order_witness :
  let readFileSync := fun p : jsstring =>
    if bool_decide (p = js "a.sql") then js "{x}" else js "{y}" in
  js "x" ∈ own_keys (discover readFileSync [js "a.sql"; js "b.sql"]) ↔
  js "x" ∈ own_keys
             (discover readFileSync [js "b.sql"; js "a.sql"; js "b.sql"]).
Proof.
  intros readFileSync.
  apply (X11_keys_do_not_depend_on_the_order readFileSync
           [js "a.sql"; js "b.sql"] [js "b.sql"; js "a.sql"; js "b.sql"]).
  - intros file_path. rewrite !elem_of_cons, !elem_of_nil. tauto.
  - discriminate.
Defined.

(** X12. Only the files whose path ends in [.sql] are read: two file
    systems that hold the same text in those files give the same
    [macro], whatever the other files hold. *)
Theorem X12_only_query_files_are_read read1 read2 filelist :
  (∀ file_path,
     file_path ∈ filelist → endsWith file_path (js ".sql") = true →
     read1 file_path = read2 file_path) →
  discover read1 filelist = discover read2 filelist.
Proof. apply foldl_visit_agree. Qed.

Lemma X12_only_query_files_are_read_witness :
  discover (fun p => if endsWith p (js ".sql") then js "{x}" else js "{y}")
    [js "a.sql"; js "notes.txt"]
  = discover (fun _ => js "{x}") [js "a.sql"; js "notes.txt"].
Proof.
  apply (X12_only_query_files_are_read
           (fun p => if endsWith p (js ".sql") then js "{x}" else js "{y}")
           (fun _ => js "{x}") [js "a.sql"; js "notes.txt"]).
  intros file_path _ Hsql. by rewrite Hsql.
Defined.



(** ** Resolving twice, and what cannot be resolved *)

(** X14. After a call that returned a hash, the cache holds for the
    namespace what it held before with the properties of the hash laid over
    it; and a second call for the same directory and namespace prints the
    notice again exactly when some key of [macro] is still no property of
    that object (as when the library stored the answer to a name with dots
    under a path). *)
Theorem X14_notice_again_for_names_left_out
    path_resolve inquirer_prompt tree readFileSync folder_path prefix σ
    cached value σ' said :
  Spec.cached_answers σ prefix = Some cached →
  getMacroValues path_resolve inquirer_prompt tree readFileSync folder_path
    prefix σ = (returned value, σ', said) →
  let macro := discover readFileSync (readDir path_resolve folder_path tree) in
  Spec.cached_answers σ' prefix = Some (Object_assign cached value)
  ∧ ∃ names,
      (getMacroValues path_resolve inquirer_prompt tree readFileSync
         folder_path prefix σ').2
      = (if forallb
              (fun n => has_property n (Object_assign cached value))
              (Object_keys macro)
         then [] else notice folder_path)
          ++ map asked names.
Proof.
  intros Hcached Hcall macro.
  destruct (getMacroValues_returned path_resolve inquirer_prompt tree
              readFileSync folder_path prefix σ cached value σ' said
              Hcached Hcall) as [Hafter Hobject].
  split; [done|].
  destruct (decide (own_keys macro = ∅)) as [Hempty|Hne].
  { rewrite getMacroValues_empty by done. exists [].
    apply (no_questions macro) in Hempty.
    rewrite length_map in Hempty. apply bool_decide_eq_false in Hempty.
    destruct (Object_keys macro); [done|simpl in Hempty; lia]. }
  destruct (Hobject Hne) as (l & Hentry & Hat).
  rewrite (getMacroValues_object _ _ _ _ _ _ σ' l Hne Hentry).
  rewrite prompt_namespace_eq. cbv zeta. cbn [snd]. rewrite Hat.
  by eexists.
Qed.

Lemma X14_notice_again_for_names_left_out_witness :
  let library := fun (questions : list question)
                     (given : gmap jsstring answer_value) =>
    (map name questions,
     Some (<[js "a" := answer_json (js "{b:1}")]> given)) in
  let σ := {| answers := ∅; heap := ∅ |} in
  let first :=
    getMacroValues slash library [file (js "q.sql")] (fun _ => js "{a.b}")
      (js "/q") (js "ns") σ in
  ∃ names,
    (getMacroValues slash library [file (js "q.sql")] (fun _ => js "{a.b}")
       (js "/q") (js "ns") first.1.2).2
    = notice (js "/q") ++ map asked names.
Proof.
  intros library σ first.
  destruct (X14_notice_again_for_names_left_out slash library
              [file (js "q.sql")] (fun _ => js "{a.b}") (js "/q") (js "ns")
              σ ∅ {[ js "a" := answer_json (js "{b:1}") ]}
              first.1.2 first.2) as [_ Hsecond].
  - reflexivity.
  - vm_compute. reflexivity.
  - exact Hsecond.
Defined.

(** X15. The call throws exactly when there is something to resolve and
    the namespace holds a primitive value that counts as true (a string
    that is not empty, a number other than 0, [true]); it throws a
    [TypeError], before it prints, asks or stores anything. *)
Theorem X15_TypeError_on_a_primitive_namespace
    path_resolve inquirer_prompt tree readFileSync folder_path prefix σ :
  ((getMacroValues path_resolve inquirer_prompt tree readFileSync
      folder_path prefix σ).1.1
   = TypeError ↔
   own_keys (discover readFileSync (readDir path_resolve folder_path tree))
     ≠ ∅
   ∧ Spec.cached_answers σ prefix = None)
  ∧ ((getMacroValues path_resolve inquirer_prompt tree readFileSync
        folder_path prefix σ).1.1
     = TypeError →
     getMacroValues path_resolve inquirer_prompt tree readFileSync
       folder_path prefix σ
     = (TypeError, σ, [])).
Proof.
  assert ((getMacroValues path_resolve inquirer_prompt tree readFileSync
             folder_path prefix σ).1.1
          = TypeError →
          own_keys
            (discover readFileSync (readDir path_resolve folder_path tree))
            ≠ ∅
          ∧ Spec.cached_answers σ prefix = None) as Hthrows.
  { intros Hthrow.
    destruct (decide (own_keys
                        (discover readFileSync
                           (readDir path_resolve folder_path tree)) = ∅))
      as [Hempty|Hne].
    { by rewrite getMacroValues_empty in Hthrow. }
    split; [done|].
    unfold Spec.cached_answers.
    destruct (falsy (answers σ !! prefix)) eqn:Hf.
    - rewrite getMacroValues_fresh, prompt_namespace_eq in Hthrow by done.
      cbv zeta in Hthrow. cbn [fst] in Hthrow.
      by destruct (inquirer_prompt _ _).2.
    - destruct (answers σ !! prefix) as [[| | | |l]|] eqn:Hentry;
        try discriminate Hf; try (by rewrite Hf).
      rewrite (getMacroValues_object _ _ _ _ _ _ σ l Hne Hentry),
        prompt_namespace_eq in Hthrow.
      cbv zeta in Hthrow. cbn [fst] in Hthrow.
      by destruct (inquirer_prompt _ _).2. }
  split.
  - split; [done|]. intros [Hne Hnone].
    by rewrite getMacroValues_primitive.
  - intros [Hne Hnone]%Hthrows. by apply getMacroValues_primitive.
Qed.

Lemma X15_TypeError_on_a_primitive_namespace_witness :
  getMacroValues slash (fun _ given => ([], Some given)) [file (js "q.sql")]
    (fun _ => js "{x}") (js "/q") (js "ads_macro")
    {| answers := {[ js "ads_macro" := JStr (js "oops") ]}; heap := ∅ |}
  = (TypeError,
     {| answers := {[ js "ads_macro" := JStr (js "oops") ]}; heap := ∅ |},
     []).
Proof.
  destruct (X15_TypeError_on_a_primitive_namespace slash
              (fun _ given => ([], Some given))
              [file (js "q.sql")] (fun _ => js "{x}") (js "/q")
              (js "ads_macro")
              {| answers := {[ js "ads_macro" := JStr (js "oops") ]};
                 heap := ∅ |}) as [_ Hcall].
  apply Hcall. reflexivity.
Defined.

(** ** The filters and checks of the questions *)

Section Questions.

Lemma replaceAll_unit a b s :
  replaceAll s [a] [b] = map (fun c => if a =? c then b else c) s.
Proof.
  unfold replaceAll. induction s as [|c rest IH]; [done|].
  cbn [replaceAll_from starts_with map]. rewrite andb_true_r.
  destruct (a =? c); simpl; by rewrite IH.
Qed.

Lemma name_filter_map value :
  Init.name_filter value =
    map (fun c => if (c =? space) || (c =? underscore) then hyphen else c)
      value.
Proof.
  unfold Init.name_filter.
  change (js " ") with [space]. change (js "_") with [underscore].
  change (js "-") with [hyphen].
  rewrite !replaceAll_unit, map_map. apply map_ext. intros c.
  destruct (N.eqb_spec space c) as [<-|Hs]; [done|].
  rewrite (proj2 (N.eqb_neq c space)) by congruence.
  rewrite (N.eqb_sym underscore c). by destruct (c =? underscore).
Qed.

Lemma starts_with_prefix p s : starts_with p (p ++ s) = true.
Proof. induction p as [|a p IH]; [done|]. simpl. by rewrite N.eqb_refl. Qed.

(** The first piece of a text split at a code unit. *)
Lemma split_single_first c cur a rest :
  c ∉ a →
  split_from [c] 0 cur (a ++ c :: rest) =
    (cur ++ a) :: split_from [c] 0 [] rest.
Proof.
  revert cur. induction a as [|x a IH]; intros cur Ha.
  - simpl app. rewrite split_from_single_cons, N.eqb_refl.
    by rewrite app_nil_r.
  - apply not_elem_of_cons in Ha as [Hx Ha].
    change ((x :: a) ++ c :: rest) with (x :: (a ++ c :: rest)).
    rewrite split_from_single_cons.
    destruct (N.eqb_spec c x) as [->|_]; [done|].
    rewrite IH by done. by rewrite <- app_assoc.
Qed.

(** The pieces of a text split at a code unit hold none of it, and only
    code units of the text. *)
Lemma split_single_pieces c cur s :
  c ∉ cur →
  Forall (fun piece => (c ∉ piece) ∧ ∀ x, x ∈ piece → x ∈ cur ++ s)
    (split_from [c] 0 cur s).
Proof.
  revert cur. induction s as [|y rest IH]; intros cur Hcur.
  - simpl. constructor; [|constructor]. split; [done|].
    intros x. by rewrite app_nil_r.
  - rewrite split_from_single_cons.
    destruct (N.eqb_spec c y) as [<-|Hne].
    + constructor.
      * split; [done|]. intros x Hx. apply elem_of_app. by left.
      * eapply Forall_impl; [apply IH, not_elem_of_nil|].
        simpl. intros piece [Hc Hin]. split; [done|].
        intros x Hx%Hin. apply elem_of_app. right.
        apply elem_of_cons. by right.
    + eapply Forall_impl; [apply IH|].
      * rewrite elem_of_app, list_elem_of_singleton. tauto.
      * simpl. intros piece [Hc Hin]. split; [done|].
        intros x Hx%Hin. by rewrite <- app_assoc in Hx.
Qed.

Lemma time_matches_from_nil s :
  Init.time_matches_from 0 s = [] ↔ Forall (fun c => is_digit c = false) s.
Proof.
  induction s as [|c rest IH]; [done|].
  cbn [Init.time_matches_from Init.time_here]. rewrite Forall_cons.
  destruct (is_digit c); [split; [done|by intros [? _]]|].
  rewrite IH. tauto.
Qed.

End Questions.

(** X16. The filter of the project name puts a hyphen for every space and
    every underscore and leaves the rest in place: the name keeps its
    length, holds no space and no underscore afterwards, every other code
    unit stays where it was, and filtering again changes nothing. *)
Theorem X16_name_filter_hyphenates value :
  length (Init.name_filter value) = length value
  ∧ (space ∉ Init.name_filter value)
  ∧ (underscore ∉ Init.name_filter value)
  ∧ (∀ i c, value !! i = Some c → c ≠ space → c ≠ underscore →
            Init.name_filter value !! i = Some c)
  ∧ Init.name_filter (Init.name_filter value) = Init.name_filter value.
Proof.
  rewrite !name_filter_map.
  split; [apply length_map|]. split; [|split; [|split]].
  - intros (c & Hc & _)%list_elem_of_fmap.
    destruct ((c =? space) || (c =? underscore)) eqn:H;
      [discriminate Hc|]. subst c. discriminate H.
  - intros (c & Hc & _)%list_elem_of_fmap.
    destruct ((c =? space) || (c =? underscore)) eqn:H;
      [discriminate Hc|]. subst c. discriminate H.
  - intros i c Hi Hs Hu.
    change (map ?g value) with (g <$> value).
    rewrite list_lookup_fmap, Hi. simpl.
    apply N.eqb_neq in Hs, Hu. by rewrite Hs, Hu.
  - rewrite map_map. apply map_ext. intros c.
    by destruct ((c =? space) || (c =? underscore)) eqn:H; [|rewrite H].
Qed.

Lemma X16_name_filter_hyphenates_witness :
  Init.name_filter (js "my project_1") !! 1%nat = Some 121.
Proof.
  destruct (X16_name_filter_hyphenates (js "my project_1"))
    as (_ & _ & _ & Hkeep & _).
  apply (Hkeep 1%nat 121); [reflexivity|discriminate|discriminate].
Defined.

(** X17. The filter of the bucket name takes one leading [gs://] off and
    nothing else: a name entered with the scheme gives the name without
    it, a name that does not begin with the scheme is kept as it is, so
    both ways of entering a bucket give the same bucket. *)
Theorem X17_bucket_filter_strips_the_scheme :
  (∀ bucket, Init.gcs_bucket_filter (js "gs://" ++ bucket) = bucket)
  ∧ (∀ value,
       starts_with (js "gs://") value = false →
       Init.gcs_bucket_filter value = value
       ∧ Init.gcs_bucket_filter (js "gs://" ++ value)
         = Init.gcs_bucket_filter value).
Proof.
  assert (∀ bucket, Init.gcs_bucket_filter (js "gs://" ++ bucket) = bucket)
    as Hstrip.
  { intros bucket. unfold Init.gcs_bucket_filter.
    rewrite starts_with_prefix. by rewrite drop_app_length. }
  split; [done|]. intros value Hno.
  assert (Init.gcs_bucket_filter value = value) as Hkeep.
  { unfold Init.gcs_bucket_filter. by rewrite Hno. }
  split; [done|]. by rewrite Hstrip, Hkeep.
Qed.

Lemma X17_bucket_filter_strips_the_scheme_witness :
  Init.gcs_bucket_filter (js "my-bucket") = js "my-bucket"
  ∧ Init.gcs_bucket_filter (js "gs://" ++ js "my-bucket")
    = Init.gcs_bucket_filter (js "my-bucket").
Proof.
  destruct X17_bucket_filter_strips_the_scheme as [_ Hkeep].
  apply (Hkeep (js "my-bucket")). reflexivity.
Defined.

(** X18. The schedule takes the hour from before the first colon of the
    time entered and the minute from behind it: [hh:mm] gives
    [mm hh * * *]; without a colon the minute is 0; and what follows a
    second colon is not used. *)
Theorem X18_schedule_from_the_time :
  (∀ hh,
     colon ∉ hh → Init.schedule_cron hh = js "0 " ++ hh ++ js " * * *")
  ∧ (∀ hh mm,
       colon ∉ hh → colon ∉ mm →
       Init.schedule_cron (hh ++ colon :: mm)
       = mm ++ js " " ++ hh ++ js " * * *")
  ∧ (∀ hh mm more,
       colon ∉ hh → colon ∉ mm →
       Init.schedule_cron (hh ++ colon :: mm ++ colon :: more)
       = Init.schedule_cron (hh ++ colon :: mm)).
Proof.
  assert (∀ hh mm, colon ∉ hh → colon ∉ mm →
            Init.schedule_cron (hh ++ colon :: mm)
            = mm ++ js " " ++ hh ++ js " * * *") as Htwo.
  { intros hh mm Hh Hm. unfold Init.schedule_cron, split.
    change (js ":") with [colon].
    rewrite split_single_first, split_from_single_absent by done. done. }
  split; [|split; [done|]].
  - intros hh Hh. unfold Init.schedule_cron, split.
    change (js ":") with [colon].
    rewrite split_from_single_absent by done.
    rewrite bool_decide_eq_false_2 by (simpl; lia). reflexivity.
  - intros hh mm more Hh Hm. rewrite (Htwo hh mm) by done.
    unfold Init.schedule_cron, split. change (js ":") with [colon].
    rewrite !split_single_first by done. simpl.
    by destruct (split_from [colon] 0 [] more).
Qed.

Lemma X18_schedule_from_the_time_witness :
  Init.schedule_cron (js "7") = js "0 7 * * *"
  ∧ Init.schedule_cron (js "07:30") = js "30 07 * * *"
  ∧ Init.schedule_cron (js "07:30:15") = Init.schedule_cron (js "07:30").
Proof.
  destruct X18_schedule_from_the_time as (Hone & Htwo & Hthree).
  split; [|split].
  - apply (Hone (js "7")). decided.
  - apply (Htwo (js "07") (js "30")); decided.
  - apply (Hthree (js "07") (js "30") (js "15")); decided.
Defined.

(** X19. The check of the time entered accepts an input exactly when it
    holds a digit somewhere: the pattern is not tied to the ends of the
    input, so only an input without any digit gets the message. *)
Theorem X19_time_check_accepts_any_digit input :
  (Init.validate input = Init.valid ↔ ∃ c, c ∈ input ∧ is_digit c = true)
  ∧ (Init.validate input = Init.invalid (js "Please use the format 00:00") ↔
     Forall (fun c => is_digit c = false) input).
Proof.
  pose proof (time_matches_from_nil input) as Hnil.
  unfold Init.validate, Init.time_matches.
  destruct (Init.time_matches_from 0 input) as [|m ms].
  - assert (Forall (fun c => is_digit c = false) input) as Hall
      by by apply Hnil.
    split; [|done]. split; [done|].
    intros (c & Hc & Hd). rewrite Forall_forall in Hall.
    rewrite (Hall c Hc) in Hd. discriminate Hd.
  - split.
    + split; [intros _|done].
      destruct (decide (Forall (fun c => is_digit c = false) input))
        as [Hall|Hsome]; [by apply Hnil in Hall|].
      apply not_Forall_Exists in Hsome; [|intros c; apply _].
      apply Exists_exists in Hsome as (c & Hc & Hd).
      exists c. split; [done|]. simpl in Hd.
      destruct (is_digit c); [done|by destruct Hd].
    + split; [done|]. intros Hall. by apply Hnil in Hall.
Qed.

(** X20. The choices of the project question always begin with the entry
    for a project entered by hand; the header row of the listing and its
    empty lines give no choice, so there is at most one choice for each
    line after the header; and every choice made from the listing has an
    id that is not empty and holds neither a comma nor a line feed. *)
Theorem X20_project_choices projects_csv :
  ∃ options,
    Init.project_choices projects_csv
    = {| Init.title := js "Enter manually";
         Init.value := Init.MANUAL_ITEM |} :: options
    ∧ (length options ≤ length (split projects_csv [LF]) - 1)%nat
    ∧ Forall (fun option =>
                Init.value option ≠ []
                ∧ (comma ∉ Init.value option)
                ∧ (LF ∉ Init.value option)) options.
Proof.
  unfold Init.project_choices. cbv zeta. eexists. split; [reflexivity|].
  split.
  - rewrite length_map.
    etransitivity; [apply length_filter|].
    by rewrite length_drop, length_map.
  - apply Forall_map. apply Forall_forall. intros row Hrow.
    apply list_elem_of_filter in Hrow as [Hfirst Hrow].
    apply subseteq_drop in Hrow.
    apply list_elem_of_fmap in Hrow as (line & -> & Hline). simpl.
    split; [by destruct (default [] (split line (js ",") !! 0%nat))|].
    pose proof (split_single_pieces LF [] projects_csv
                  ltac:(apply not_elem_of_nil)) as Hlines.
    rewrite Forall_forall in Hlines.
    destruct (Hlines line Hline) as [Hlf _].
    pose proof (split_single_pieces comma [] line
                  ltac:(apply not_elem_of_nil)) as Hcols.
    unfold split in *. change (js ",") with [comma] in *.
    destruct (split_from [comma] 0 [] line) as [|col cols] eqn:Hsplit;
      [by apply split_from_not_nil in Hsplit|].
    apply Forall_cons in Hcols as [[Hcomma Hfrom] _]. simpl.
    split; [done|]. intros Hin. by apply Hfrom in Hin.
Qed.

Lemma X19_time_check_accepts_any_digit_witness :
  Init.validate (js "at 7 o'clock") = Init.valid.
Proof.
  apply (X19_time_check_accepts_any_digit (js "at 7 o'clock")).
  exists 55. split; [decided|reflexivity].
Defined.

(** ** What a call shows of the error output *)

Section Surfacing.

Context (f : flags) (spinner : option Spinner).

(** The caller's [realtime] decides the echo: the spinner only turns a
    missing value into [false], and the diagnostic flag leaves it. *)
Lemma effective_realtime opts :
  truthy (realtime (effective_options f spinner opts)) =
    truthy (realtime (default no_options opts)).
Proof.
  unfold effective_options.
  destruct (realtime (default no_options opts))
    as [b|] eqn:Hr.
  - rewrite (bool_decide_eq_false_2 (Some b = None)) by done.
    rewrite andb_false_r. destruct (is_diag f); cbn [realtime];
      by rewrite Hr.
  - rewrite (bool_decide_eq_true_2 (None = None)) by done.
    rewrite andb_true_r.
    destruct (bool_decide (is_Some spinner)), (is_diag f);
      cbn [realtime]; by rewrite ?Hr.
Qed.

Lemma effective_silent opts :
  silent (effective_options f spinner opts) =
    silent (default no_options opts).
Proof.
  unfold effective_options.
  destruct (_ && _), (is_diag f); reflexivity.
Qed.

End Surfacing.

(** X21. For a command that [spawn] accepts: apart from the command line
    that the debug flag prints first, a call prints with [console.log] only
    the error output of the command, once, and only when that output is not
    empty, the code is not 0, and the caller asked neither for [realtime]
    nor for [silent]; the output of a command that succeeded is never
    printed this way. *)
Theorem X21_error_output_is_shown_once
    toString f h cmd spinner opts chunks code0 :
  spawn_refuses cmd = false →
  let o := default no_options opts in
  shown (exec_cmd toString f h cmd spinner opts (child chunks code0)).1 =
    (if debug f || diag f then [cmd] else [])
      ++ (if nonempty (text_of toString Stderr chunks)
             && negb (truthy (realtime o))
             && negb (truthy (silent o))
             && negb (bool_decide (code0 = Some 0%Z))
          then [text_of toString Stderr chunks] else []).
Proof.
  intros Hspawn. cbv zeta. rewrite exec_cmd_child by done. cbv zeta.
  cbn [fst].
  assert (shown (before_spawn f cmd spinner ++ [spawn cmd])
          = if debug f || diag f then [cmd] else []) as Hbefore.
  { unfold before_spawn, is_debug, chalk_gray, shown, characters.
    destruct (bool_decide _), (debug f || diag f); simpl;
      by rewrite ?app_nil_r. }
  rewrite (app_assoc (before_spawn f cmd spinner)).
  rewrite shown_app, Hbefore, shown_app, shown_echo. f_equal.
  match goal with
  | |- context [on_close f h cmd spinner ?o code0 ?st] =>
      destruct (on_close_cases h spinner o st) as [Hok|(Htty & Her & Hsome)]
  end.
  - rewrite on_close_runs by done. cbn [snd buf_stderr buf_stdout].
    rewrite !shown_app, effective_realtime, effective_silent.
    unfold shown at 3, characters, unstyled.
    repeat match goal with
           | |- context [if ?b then _ else _] => destruct b
           end; rewrite ?shown_erase; simpl; by rewrite ?app_nil_r.
  - rewrite on_close_throws by done. cbn [snd].
    unfold erasing in Her. rewrite effective_realtime in Her.
    destruct (truthy (realtime (default no_options opts)));
      [|by rewrite andb_false_r in Her].
    by rewrite andb_false_r.
Qed.

Lemma X21_error_output_is_shown_once_witness :
  shown
    (exec_cmd ascii_toString {| diag := false; debug := true |} (posix 80)
       (js "gsutil mb") None None
       (child [(Stderr, bytes "409 exists")] (Some 1%Z))).1
  = [js "gsutil mb"; js "409 exists"].
Proof.
  apply (X21_error_output_is_shown_once ascii_toString
           {| diag := false; debug := true |} (posix 80) (js "gsutil mb")
           None None [(Stderr, bytes "409 exists")] (Some 1%Z)).
  reflexivity.
Defined.

(** ** One namespace after the other *)

Section TwoNamespaces.

Context (path_resolve : jsstring → jsstring → jsstring)
  (inquirer_prompt :
     list question → gmap jsstring answer_value →
     list jsstring * option (gmap jsstring answer_value))
  (tree : list dirent) (readFileSync : jsstring → jsstring)
  (folder_path prefix : jsstring).

(** What a call for [prefix] leaves of another namespace. *)
Lemma getMacroValues_other_namespace σ other :
  Spec.answer_cache σ →
  other ≠ prefix →
  let σ' :=
    (getMacroValues path_resolve inquirer_prompt tree readFileSync
       folder_path prefix σ).1.2 in
  Spec.cached_answers σ' other = Spec.cached_answers σ other.
Proof.
  intros [Hexists Hsingle] Hother.
  destruct (getMacroValues_store path_resolve inquirer_prompt tree
              readFileSync folder_path prefix σ)
    as [->|[(l0 & hash & Hentry & ->)|(l0 & hash & Hfresh & ->)]];
    [done| |]; unfold Spec.cached_answers, object_at; cbn [answers heap].
  - destruct (answers σ !! other) as [[| | | |l]|] eqn:Hl; try done.
    rewrite lookup_insert_ne; [done|]. intros ->.
    apply Hother. by eapply Hsingle.
  - rewrite lookup_insert_ne by done.
    destruct (answers σ !! other) as [[| | | |l]|] eqn:Hl; try done.
    rewrite lookup_insert_ne; [done|]. intros ->.
    apply Hexists in Hl as [? Hl]. congruence.
Qed.

(** A call leaves an Answer Cache. *)
Lemma getMacroValues_answer_cache σ :
  Spec.answer_cache σ →
  Spec.answer_cache
    (getMacroValues path_resolve inquirer_prompt tree readFileSync
       folder_path prefix σ).1.2.
Proof.
  intros [Hexists Hsingle].
  destruct (getMacroValues_store path_resolve inquirer_prompt tree
              readFileSync folder_path prefix σ)
    as [->|[(l0 & hash & Hentry & ->)|(l0 & hash & Hfresh & ->)]];
    [done| |]; split; cbn [answers heap].
  - intros key l Hl. rewrite lookup_insert_is_Some'. right.
    by eapply Hexists.
  - done.
  - intros key l. rewrite lookup_insert_is_Some'.
    destruct (decide (key = prefix)) as [->|Hk].
    + rewrite lookup_insert_eq. intros [= ->]. by left.
    + rewrite lookup_insert_ne by done. intros Hl. right.
      by eapply Hexists.
  - assert (∀ key, answers σ !! key ≠ Some (JObj l0)) as Hnew.
    { intros key [? Hl]%Hexists. congruence. }
    intros key1 key2 l.
    destruct (decide (key1 = prefix)) as [->|Hne1];
      destruct (decide (key2 = prefix)) as [->|Hne2]; [done|..].
    + rewrite lookup_insert_eq, lookup_insert_ne by done.
      intros [= <-] H2. by apply Hnew in H2.
    + rewrite lookup_insert_eq, lookup_insert_ne by done.
      intros H1 [= <-]. by apply Hnew in H1.
    + rewrite !lookup_insert_ne by done. apply Hsingle.
Qed.

End TwoNamespaces.

(** X22. Resolving one namespace after another, as [init] does for
    [ads_macro] and [bq_macro], on an Answer Cache: what the cache holds
    for the first namespace after the first call is what it holds for it
    after the second, whatever the second directory holds and whatever the
    library does. *)
Theorem X22_second_namespace_keeps_the_first
    path_resolve inquirer_prompt tree1 tree2 readFileSync folder1 folder2
    prefix1 prefix2 σ :
  Spec.answer_cache σ →
  prefix1 ≠ prefix2 →
  let σ1 :=
    (getMacroValues path_resolve inquirer_prompt tree1 readFileSync folder1
       prefix1 σ).1.2 in
  let σ2 :=
    (getMacroValues path_resolve inquirer_prompt tree2 readFileSync folder2
       prefix2 σ1).1.2 in
  Spec.cached_answers σ2 prefix1 = Spec.cached_answers σ1 prefix1
  ∧ Spec.cached_answers σ1 prefix2 = Spec.cached_answers σ prefix2.
Proof.
  intros Hcache Hne σ1 σ2.
  assert (Spec.answer_cache σ1) as Hcache1.
  { by apply getMacroValues_answer_cache. }
  split.
  - by apply getMacroValues_other_namespace.
  - apply getMacroValues_other_namespace; [done|congruence].
Qed.

Lemma X22_second_namespace_keeps_the_first_witness :
  let library := fun (questions : list question)
                     (given : gmap jsstring answer_value) =>
    (map name questions,
     Some (<[js "x" := answer_text (js "1")]> given)) in
  let readFileSync := fun p : jsstring =>
    if bool_decide (p = js "/ads/a.sql") then js "{x}" else js "{x} {y}" in
  let σ := {| answers := ∅; heap := ∅ |} in
  let σ1 :=
    (getMacroValues slash library [file (js "a.sql")]
       readFileSync (js "/ads") (js "ads_macro") σ).1.2 in
  let σ2 :=
    (getMacroValues slash library [file (js "b.sql")]
       readFileSync (js "/bq") (js "bq_macro") σ1).1.2 in
  Spec.cached_answers σ2 (js "ads_macro")
  = Spec.cached_answers σ1 (js "ads_macro")
  ∧ Spec.cached_answers σ1 (js "bq_macro")
    = Spec.cached_answers σ (js "bq_macro").
Proof.
  intros library readFileSync σ σ1 σ2.
  apply (X22_second_namespace_keeps_the_first slash library
           [file (js "a.sql")] [file (js "b.sql")] readFileSync
           (js "/ads") (js "/bq") (js "ads_macro") (js "bq_macro") σ).
  - split; intros key; intros l; unfold σ; cbn [answers];
      rewrite lookup_empty; discriminate.
  - discriminate.
Defined.
